(** * distshell: batched dispatch of commands to a cluster of hosts

    A shallow embedding of [distshell.go] and a verification of its
    specification.

    Conventions of the embedding.
    - A Go [string] is a [string]; a [[]byte] is a [list byte] (a nil slice
      and an empty slice are both [[]]); a Go [error] is the text its
      [Error()] method returns, and a possibly-nil [error] is an
      [option error].
    - A Go [int] is a [Z].  The only arithmetic of the package increments
      counters that are bounded by [len(ds.HOSTS)], itself a Go [int], so
      no counter can wrap around.
    - [ds.HOSTS] is a [list Host]; [&ds.HOSTS[i]] is the index [i] into it.
    - The external programs ([ssh], [scp] through [kit/kitutils]) and
      [exec.LookPath] are parameters of the development, gathered in
      [Env].
    - A goroutine is the list of the actions it has left to do; the
      goroutines of a dispatch are interleaved by a schedule. *)

From Stdlib Require Import ZArith.
From Stdlib.Strings Require Import String Ascii Byte.
From stdpp Require Import base tactics option list strings.

Open Scope string_scope.
Open Scope list_scope.
Open Scope Z_scope.

(** ** Data model *)

Definition error := string.

(** [errors.New] *)
Definition errors_New (text : string) : error := text.

(** [type Host struct { Name; Stdout; cmd; args; CmdError }] *)
Record Host := mkHost {
  Name : string;
  Stdout : list byte;
  cmd : string;
  args : list string;
  CmdError : option error
}.

(** [type DistShell struct { HOSTS; monitor; maxBatch }] *)
Record DistShell := mkDistShell {
  HOSTS : list Host;
  monitor : bool;
  maxBatch : Z
}.

(** Field assignments [h.cmd = c], [h.args = a], [h.Stdout = o],
    [h.CmdError = e]. *)
Definition set_cmd (c : string) (h : Host) : Host :=
  mkHost (Name h) (Stdout h) c (args h) (CmdError h).
Definition set_args (a : list string) (h : Host) : Host :=
  mkHost (Name h) (Stdout h) (cmd h) a (CmdError h).
Definition set_Stdout (o : list byte) (h : Host) : Host :=
  mkHost (Name h) o (cmd h) (args h) (CmdError h).
Definition set_CmdError (e : option error) (h : Host) : Host :=
  mkHost (Name h) (Stdout h) (cmd h) (args h) e.

Definition set_HOSTS (hs : list Host) (ds : DistShell) : DistShell :=
  mkDistShell hs (monitor ds) (maxBatch ds).

(** ** Construction and configuration *)

(** [h := Host{}; h.Name = hList[i]] *)
Definition zeroHost (name : string) : Host := mkHost name [] "" [] None.

(** [buildHost]: one zero-valued record per name, in the order given. *)
Fixpoint buildHost (hList : list string) : list Host :=
  match hList with
  | [] => []
  | n :: rest => zeroHost n :: buildHost rest
  end.

(** [New]: [DistShell{buildHost(hList), true, 50}] *)
Definition New (hList : list string) : DistShell :=
  mkDistShell (buildHost hList) true 50.

Definition EnableMonitoring (ds : DistShell) : DistShell :=
  mkDistShell (HOSTS ds) true (maxBatch ds).
Definition DisableMonitoring (ds : DistShell) : DistShell :=
  mkDistShell (HOSTS ds) false (maxBatch ds).
Definition SetMaxBatch (n : Z) (ds : DistShell) : DistShell :=
  mkDistShell (HOSTS ds) (monitor ds) n.


(** ** Identity lookups *)

(** The loop of [AddCommand]: the first record whose [Name] is [h] gets the
    command and the arguments, and the loop returns [true] at once; when the
    range is exhausted the result is [false]. *)
Fixpoint AddCommand_loop (hs : list Host) (h command : string)
    (cargs : list string) : list Host * bool :=
  match hs with
  | [] => ([], false)
  | x :: rest =>
      if String.eqb (Name x) h
      then (set_args cargs (set_cmd command x) :: rest, true)
      else let '(rest', found) := AddCommand_loop rest h command cargs in
           (x :: rest', found)
  end.

Definition AddCommand (ds : DistShell) (h command : string)
    (cargs : list string) : DistShell * bool :=
  let '(hs, found) := AddCommand_loop (HOSTS ds) h command cargs in
  (set_HOSTS hs ds, found).

(** [[]byte{'n','o',' ','o','u','t','p','u','t'}] *)
Definition no_output : list byte := list_byte_of_string "no output".

(** [GetHostStdout]: the [Stdout] of the first record named [h], the
    sentinel when the range is exhausted. *)
Fixpoint GetHostStdout_loop (hs : list Host) (h : string) : list byte :=
  match hs with
  | [] => no_output
  | x :: rest =>
      if String.eqb (Name x) h then Stdout x else GetHostStdout_loop rest h
  end.

Definition GetHostStdout (ds : DistShell) (h : string) : list byte :=
  GetHostStdout_loop (HOSTS ds) h.

(** ** The failure report *)

(** [strings.TrimRight(s, ",")]: for a cutset of one ASCII byte the Go
    library removes every trailing occurrence of that byte.  The tail is
    trimmed first; a byte is dropped only when nothing is kept after it. *)
Fixpoint trimRightByte (s : string) (c : ascii) : string :=
  match s with
  | EmptyString => EmptyString
  | String a s' =>
      match trimRightByte s' c with
      | EmptyString => if Ascii.eqb a c then EmptyString else String a EmptyString
      | t => String a t
      end
  end.

Definition comma : ascii := ","%char.

(** The scan that ends [Execute] and [GetFile]:
    [failedHosts += ds.HOSTS[i].Name + ","] for every record whose
    [CmdError] is not nil. *)
Definition failedHosts (hs : list Host) : string :=
  fold_left (fun acc h =>
               match CmdError h with
               | Some _ => acc +:+ Name h +:+ ","
               | None => acc
               end) hs "".

(** What the dispatch returns: [nil], or [errors.New] of the trimmed list. *)
Definition report (hs : list Host) : option error :=
  let failed := failedHosts hs in
  if String.eqb failed "" then None
  else Some (errors_New (trimRightByte failed comma)).

(** ** The environment *)

(** What the package takes from the operating environment.  The result of
    an external program is whatever the environment makes it; the index of
    the host record tells apart the invocations of one dispatch, which may
    differ even for equal arguments.
    - [LookPath file]: [exec.LookPath], [None] when the lookup fails;
    - [CombinedOutput i path argv]:
      [exec.Command(path, argv...).CombinedOutput()] as run for record [i];
    - [kitutils_RunCMD i path argv]: [kitutils.RunCMD(path, argv...)] as
      run for record [i]; its first component is the text that [%s] prints
      for the returned output. *)
Record Env := mkEnv {
  LookPath : string -> option string;
  CombinedOutput : nat -> string -> list string -> list byte * option error;
  kitutils_RunCMD : nat -> string -> list string -> string * option error
}.

(** ** Work items *)

(** The effects of a work item on what it shares with the rest of the
    program: the status channel, its own host record, the console and the
    process.  [Exec] marks the moment the external program runs. *)
Inductive action :=
| Send (s : string)
| SetStdout (out : list byte)
| SetCmdError (e : error)
| Exec (path : string) (argv : list string)
| Printf (s : string)
| Exit.

Definition newline : string := String "010"%char EmptyString.

(** The argument vector [runCMD] builds with its [append] calls. *)
Definition ssh_argv (h : Host) : list string :=
  ["-o"; "StrictHostKeyChecking=no"; "-o"; "BatchMode=yes"; Name h; cmd h]
    ++ args h.

(** [runCMD(h, ch)] for the record at index [i], as the sequence of its
    effects.  The fields it reads ([Name], [cmd], [args]) are written by no
    work item, so the sequence is fixed when the goroutine is started.
    There is no [return] after the first [if]: the lookup and the call of
    the external program follow in every case. *)
Definition runCMD (E : Env) (i : nat) (h : Host) : list action :=
  (if String.eqb (cmd h) ""
   then [Send ("ERROR: host " +:+ Name h +:+ " has no available command to execute");
         SetCmdError (errors_New "no available command to execute")]
   else [])
  ++
  match LookPath E "ssh" with
  | None => [Printf ("Unable to find ssh in $PATH" +:+ newline); Exit]
  | Some SSH =>
      Exec SSH (ssh_argv h) ::
      match CombinedOutput E i SSH (ssh_argv h) with
      | (out, Some err) =>
          [Send ("ERROR: Failed to exec command on host " +:+ Name h +:+ ": " +:+ err);
           SetStdout out;
           SetCmdError err]
      | (out, None) =>
          [SetStdout out;
           Send ("INFO: completed running command on host " +:+ Name h)]
      end
  end.

Definition scp_argv (h : Host) (filestring destination : string) : list string :=
  ["-o"; "BatchMode=yes"; "-o"; "StrictHostKeyChecking=no";
   Name h +:+ ":" +:+ filestring; destination].

(** The function literal [GetFile] starts for the record at index [i]. *)
Definition getFileTask (E : Env) (SCP filestring destination : string)
    (i : nat) (h : Host) : list action :=
  Exec SCP (scp_argv h filestring destination) ::
  match kitutils_RunCMD E i SCP (scp_argv h filestring destination) with
  | (cmdout, Some cmderr) =>
      [SetCmdError cmderr;
       Send (Name h +:+ ": ERROR " +:+ cmdout +:+ ": " +:+ cmderr)]
  | (_, None) =>
      [Send (Name h +:+ ": SUCCESS")]
  end.

(** The effect of one action on the record of the work item. *)
Definition apply_action (a : action) (h : Host) : Host :=
  match a with
  | SetStdout out => set_Stdout out h
  | SetCmdError e => set_CmdError (Some e) h
  | _ => h
  end.

Definition apply_actions (acts : list action) (h : Host) : Host :=
  fold_left (fun h a => apply_action a h) acts h.

Definition is_send (a : action) : bool :=
  match a with Send _ => true | _ => false end.

(** The messages a sequence of actions puts on the channel, in order. *)
Fixpoint sends (acts : list action) : list string :=
  match acts with
  | [] => []
  | Send s :: rest => s :: sends rest
  | _ :: rest => sends rest
  end.

(** ** The dispatcher *)

(** The loops of [Execute] and of [GetFile] are the same text; they differ
    in the function they start for each record, which is the parameter
    [work] below.  The goroutines are interleaved: a state holds what each
    of them has left to do, and a step is one action of one of them.  A
    send, a receive, an assignment to a field, the run of the external
    program, and the scan of the records that ends the call are one step
    each. *)

(** What the controlling goroutine did, in order: the launches and the
    messages it received.  A record of the run, read by no step. *)
Inductive event :=
| Launched (i : nat)
| Received (s : string).

(** Where the controlling goroutine stands.
    - [Launch i runningCount TotalCmdsRun]: at the head of the [range] loop,
      about to test index [i];
    - [Drain i c runningCount TotalCmdsRun]: at the test [c < runningCount]
      of the inner loop, inside iteration [i];
    - [Returned r]: the call returned [r];
    - [Exited]: [os.Exit(1)] ended the process;
    - [Panicked]: [make(chan string, n)] with [n < 0]. *)
Inductive ctl :=
| Launch (i : nat) (runningCount TotalCmdsRun : Z)
| Drain (i : nat) (c runningCount TotalCmdsRun : Z)
| Returned (r : option error)
| Exited
| Panicked.

(** The state of a dispatch in progress: the host records, the buffer of
    [cmdStatus], what is left to do of every goroutine started so far (in
    launch order, so position [i] is the work item of record [i]), the
    controlling goroutine, and the console. *)
Record config := mkConfig {
  hosts : list Host;
  chan : list string;
  pool : list (list action);
  pc : ctl;
  console : list string;
  log : list event
}.

Inductive tid :=
| Controller
| Worker (i : nat).

Definition Println (s : string) : string := s +:+ newline.

Section Dispatch.

(** [ds.monitor], [ds.maxBatch] and the function started for each
    record. *)
Variable mon : bool.
Variable mb : Z.
Variable work : nat -> Host -> list action.

(** [s := <-cmdStatus; if ds.monitor { fmt.Println(s) }] *)
Definition receive (s : string) (c : config) : list string * list event :=
  ((if mon then console c ++ [Println s] else console c),
   log c ++ [Received s]).

(** One step of the controlling goroutine; [None] when it is blocked on
    an empty channel or has ended. *)
Definition step_controller (c : config) : option config :=
  match pc c with
  | Launch i runningCount TotalCmdsRun =>
      match hosts c !! i with
      | Some h =>
          let runningCount := runningCount + 1 in
          let TotalCmdsRun := TotalCmdsRun + 1 in
          let TotalHosts := Z.of_nat (length (hosts c)) in
          Some (mkConfig (hosts c) (chan c) (pool c ++ [work i h])
                  (if (runningCount >=? mb) || (TotalCmdsRun >=? TotalHosts)
                   then Drain i 0 runningCount TotalCmdsRun
                   else Launch (S i) runningCount TotalCmdsRun)
                  (console c) (log c ++ [Launched i]))
      | None =>
          Some (mkConfig (hosts c) (chan c) (pool c)
                  (Returned (report (hosts c))) (console c) (log c))
      end
  | Drain i k runningCount TotalCmdsRun =>
      if k <? runningCount then
        match chan c with
        | s :: rest =>
            let '(out, lg) := receive s c in
            Some (mkConfig (hosts c) rest (pool c)
                    (Drain i (k + 1) runningCount TotalCmdsRun) out lg)
        | [] => None
        end
      else
        Some (mkConfig (hosts c) (chan c) (pool c)
                (Launch (S i) 0 TotalCmdsRun) (console c) (log c))
  | _ => None
  end.

(** [ch <- s] by a work item.  With a buffer, the send needs room in it.
    Without one ([make(chan string, 0)]) it needs the controlling
    goroutine at its receive, which then takes the message at once. *)
Definition step_send (s : string) (c : config) : option config :=
  if 0 <? mb then
    if Z.of_nat (length (chan c)) <? mb
    then Some (mkConfig (hosts c) (chan c ++ [s]) (pool c) (pc c)
                 (console c) (log c))
    else None
  else
    match pc c with
    | Drain i k runningCount TotalCmdsRun =>
        if k <? runningCount then
          let '(out, lg) := receive s c in
          Some (mkConfig (hosts c) (chan c) (pool c)
                  (Drain i (k + 1) runningCount TotalCmdsRun) out lg)
        else None
    | _ => None
    end.

Definition step_action (i : nat) (a : action) (c : config) : option config :=
  match a with
  | Send s => step_send s c
  | SetStdout _ | SetCmdError _ =>
      Some (mkConfig (alter (apply_action a) i (hosts c)) (chan c) (pool c)
              (pc c) (console c) (log c))
  | Exec _ _ => Some c
  | Printf s =>
      Some (mkConfig (hosts c) (chan c) (pool c) (pc c) (console c ++ [s])
              (log c))
  | Exit =>
      Some (mkConfig (hosts c) (chan c) (pool c) Exited (console c) (log c))
  end.

Definition set_pool (p : list (list action)) (c : config) : config :=
  mkConfig (hosts c) (chan c) p (pc c) (console c) (log c).

Definition alive (c : config) : bool :=
  match pc c with
  | Exited | Panicked => false
  | _ => true
  end.

(** One step of the goroutine of record [i]: its next action, when the
    process is alive and the action is not blocked. *)
Definition step_worker (i : nat) (c : config) : option config :=
  if alive c then
    match pool c !! i with
    | Some (a :: rest) =>
        c' ← step_action i a c;
        Some (set_pool (<[i := rest]> (pool c')) c')
    | _ => None
    end
  else None.

Definition step (t : tid) (c : config) : option config :=
  match t with
  | Controller => step_controller c
  | Worker i => step_worker i c
  end.

(** A schedule names the goroutine that moves at each step; it is
    refused as soon as it names one that cannot move. *)
Fixpoint run (sched : list tid) (c : config) : option config :=
  match sched with
  | [] => Some c
  | t :: rest => c' ← step t c; run rest c'
  end.

(** The state in which the loop of a dispatch starts. *)
Definition start (hs : list Host) : config :=
  mkConfig hs [] [] (Launch 0 0 0) [] [].

Definition reachable_from (c0 c : config) : Prop :=
  exists sched, run sched c0 = Some c.

End Dispatch.

(** Every goroutine has ended and the call has returned. *)
Definition settled (c : config) : Prop :=
  (exists r, pc c = Returned r) /\ Forall (fun acts => acts = []) (pool c).

(** [ds.Execute()]: [make(chan string, ds.maxBatch)] panics for a negative
    size; otherwise the loop starts. *)
Definition Execute_start (ds : DistShell) : config :=
  if maxBatch ds <? 0
  then mkConfig (HOSTS ds) [] [] Panicked [] []
  else start (HOSTS ds).

Definition Execute_run (E : Env) (ds : DistShell) (sched : list tid)
  : option config :=
  run (monitor ds) (maxBatch ds) (runCMD E) sched (Execute_start ds).

(** [ds.GetFile(filestring, destination)]: after [make], the lookup of
    [scp]; when it fails the process prints and exits. *)
Definition GetFile_start (E : Env) (ds : DistShell) : config :=
  if maxBatch ds <? 0
  then mkConfig (HOSTS ds) [] [] Panicked [] []
  else match LookPath E "scp" with
       | None => mkConfig (HOSTS ds) [] [] Exited
                   ["Unable to find scp in $PATH" +:+ newline] []
       | Some _ => start (HOSTS ds)
       end.

Definition GetFile_work (E : Env) (filestring destination : string)
  : nat -> Host -> list action :=
  match LookPath E "scp" with
  | Some SCP => getFileTask E SCP filestring destination
  | None => fun _ _ => []
  end.

Definition GetFile_run (E : Env) (ds : DistShell)
    (filestring destination : string) (sched : list tid) : option config :=
  run (monitor ds) (maxBatch ds) (GetFile_work E filestring destination)
    sched (GetFile_start E ds).

(** [ds.ExecuteAll(cmd, args...)]: [AddCommand] with the name of every
    record in turn, then [Execute].  The names do not change, so the loop
    ranges over those of the session as it was. *)
Definition ExecuteAll_assign (ds : DistShell) (command : string)
    (cargs : list string) : DistShell :=
  fold_left (fun d h => (AddCommand d (Name h) command cargs).1) (HOSTS ds) ds.


(** ** Vocabulary of the specification *)

(** A session on which nothing ran: built by [New], then any number of
    assignments [(identity, command, arguments)]. *)
Definition AddCommands (ds : DistShell)
    (asg : list (string * string * list string)) : DistShell :=
  fold_left (fun ds '(h, command, cargs) => fst (AddCommand ds h command cargs))
    asg ds.

(** The identities of the records whose [CmdError] is set, in session
    order. *)
Definition failed_names (hs : list Host) : list string :=
  Name <$> filter (fun h => CmdError h <> None) hs.

(** A comma-separated list: a comma between neighbours, none before the
    first or after the last element. *)
Fixpoint join_comma (l : list string) : string :=
  match l with
  | [] => ""
  | [x] => x
  | x :: rest => x +:+ "," +:+ join_comma rest
  end.

Fixpoint last_byte (s : string) : option ascii :=
  match s with
  | EmptyString => None
  | String a EmptyString => Some a
  | String _ s' => last_byte s'
  end.

(** The report as the specification words it: an error exactly when some
    record failed, whose text is the comma-separated list of the failed
    identities, each of them once. *)
Definition report_as_specified (hs : list Host) : Prop :=
  report hs = match failed_names hs with
              | [] => None
              | l => Some (join_comma l)
              end
  /\ NoDup (failed_names hs).

(** What [runCMD] leaves on the record of a host whose external program
    returned [(out, err)]: the output in either case, the error when there
    is one. *)
Definition recorded_by_runCMD (out : list byte) (err : option error)
    (h : Host) : Host :=
  match err with
  | Some e => set_CmdError (Some e) (set_Stdout out h)
  | None => set_Stdout out h
  end.

(** The file-retrieval work item as the specification words it: it records
    the outcome of [scp] on the host record the way [runCMD] records the
    outcome of [ssh]. *)
Definition getFile_records_like_runCMD (E : Env)
    (SCP filestring destination : string) (i : nat) (h : Host) : Prop :=
  let '(cmdout, cmderr) :=
    kitutils_RunCMD E i SCP (scp_argv h filestring destination) in
  apply_actions (getFileTask E SCP filestring destination i h) h
  = recorded_by_runCMD (list_byte_of_string cmdout) cmderr h.

(** ** Invariants of a dispatch *)

Section Invariants.

Variable work : nat -> Host -> list action.
Variable hs0 : list Host.

(** Each work item owns its record.  Record [i] is as the session had it
    until its goroutine is started, and from then on it is that record
    with the actions the goroutine has carried out applied in order.  A
    goroutine that carried out [os.Exit] ended the process.  The
    goroutines started are those of the records before the loop index. *)
Definition owned (c : config) : Prop :=
  length (hosts c) = length hs0
  /\ (length (pool c) <= length hs0)%nat
  /\ (forall (i : nat) h0, hs0 !! i = Some h0 ->
        match pool c !! i with
        | Some rest =>
            exists done, work i h0 = done ++ rest
                         /\ hosts c !! i = Some (apply_actions done h0)
                         /\ (Exit ∈ done -> pc c = Exited)
        | None => hosts c !! i = Some h0
        end)
  /\ match pc c with
     | Launch i _ _ => length (pool c) = i
     | Drain i _ _ _ => length (pool c) = S i
     | Returned _ => length (pool c) = length hs0
     | Exited | Panicked => True
     end.

End Invariants.

(** How a step of a work item may move the controlling goroutine: not at
    all, to the end of the process, or past a receive without a buffer. *)
Definition pc_after_action (p p' : ctl) : Prop :=
  p' = p \/ p' = Exited
  \/ exists i k rc tot, p = Drain i k rc tot /\ p' = Drain i (k + 1) rc tot.

(** [lastError] as the specification words it, for [Execute]: once the
    call has settled, the error of a record is absent when its work item
    succeeded and set when it failed, whatever an earlier dispatch left. *)
Definition lastError_reflects_last_run : Prop :=
  forall E ds sched c (i : nat) h0 h p,
    Execute_run E ds sched = Some c -> settled c ->
    HOSTS ds !! i = Some h0 -> hosts c !! i = Some h ->
    cmd h0 <> "" -> LookPath E "ssh" = Some p ->
    match (CombinedOutput E i p (ssh_argv h0)).2 with
    | None => CmdError h = None
    | Some _ => CmdError h <> None
    end.


(** ** Batches *)

(** A work item is in flight from its launch until it has put its last
    message on the channel. *)
Definition pending (acts : list action) : Prop := sends acts <> [].

Global Instance pending_dec acts : Decision (pending acts).
Proof. unfold pending. apply _. Defined.

Definition in_flight (c : config) : nat := length (filter pending (pool c)).

(** The external program of a work item has yet to run. *)
Definition to_run (acts : list action) : Prop :=
  exists p argv, Exec p argv ∈ acts.

(** Every work item of the session emits exactly one message. *)
Definition one_message (work : nat -> Host -> list action)
    (hs : list Host) : Prop :=
  forall (i : nat) h, hs !! i = Some h -> length (sends (work i h)) = 1%nat.

(** No work item of the session ends the process. *)
Definition no_exit (work : nat -> Host -> list action)
    (hs : list Host) : Prop :=
  forall (i : nat) h, hs !! i = Some h -> Exit ∉ work i h.

(** The indices launched and the messages received, as the log has them. *)
Fixpoint launched (lg : list event) : list nat :=
  match lg with
  | [] => []
  | Launched i :: rest => i :: launched rest
  | Received _ :: rest => launched rest
  end.

Fixpoint received (lg : list event) : list string :=
  match lg with
  | [] => []
  | Launched _ :: rest => received rest
  | Received s :: rest => s :: received rest
  end.

(** A log of drained batches: each batch launches between one and [width]
    work items and then receives exactly as many messages, before the next
    batch launches anything. *)
Inductive batches (width : Z) : list event -> Prop :=
| batches_nil : batches width []
| batches_snoc done (ls : list nat) (rs : list string) :
    batches width done ->
    1 <= Z.of_nat (length ls) <= width ->
    length rs = length ls ->
    batches width (done ++ (Launched <$> ls) ++ (Received <$> rs)).

(** The log of a dispatch in progress: drained batches, then the launches
    of the current batch and the messages received for it so far. *)
Definition batched (width : Z) (lg : list event) : Prop :=
  exists done (ls : list nat) (rs : list string),
    lg = done ++ (Launched <$> ls) ++ (Received <$> rs)
    /\ batches width done
    /\ (length rs <= length ls)%nat
    /\ Z.of_nat (length ls) <= width.

(** The counters of the loop against the state, when every work item
    emits one message.  [b] is [runningCount]: the work items of the
    current batch, which are the last [b] launched.  The messages in the
    channel, those received for the batch and the work items in flight add
    up to [b]. *)
Definition batch_inv (mb : Z) (N : nat) (c : config) : Prop :=
  Forall (fun acts => (length (sends acts) <= 1)%nat) (pool c)
  /\ Z.of_nat (in_flight c) <= Z.max 1 mb
  /\ launched (log c) = seq 0 (length (pool c))
  /\ batched (Z.max 1 mb) (log c)
  /\ match pc c with
     | Launch i rc tot =>
         exists (b : nat) done,
           rc = Z.of_nat b /\ tot = Z.of_nat i /\ (b <= i)%nat
           /\ (b = 0%nat \/ (rc < mb /\ (i < N)%nat))
           /\ (length (chan c) + in_flight c = b)%nat
           /\ batches (Z.max 1 mb) done
           /\ log c = done ++ (Launched <$> seq (i - b) b)
     | Drain i k rc tot =>
         exists (b : nat) done (rs : list string),
           rc = Z.of_nat b /\ tot = Z.of_nat (S i) /\ (1 <= b <= S i)%nat
           /\ rc <= Z.max 1 mb
           /\ k = Z.of_nat (length rs)
           /\ (length (chan c) + length rs + in_flight c = b)%nat
           /\ batches (Z.max 1 mb) done
           /\ log c = done ++ (Launched <$> seq (S i - b) b)
                        ++ (Received <$> rs)
     | Returned _ =>
         chan c = [] /\ in_flight c = 0%nat
         /\ batches (Z.max 1 mb) (log c)
         /\ length (pool c) = N
     | Exited | Panicked => True
     end.

(** ** What is left to do *)

Section Measure.

Variable work : nat -> Host -> list action.
Variable hs0 : list Host.




End Measure.

(** ** One batch *)



(** An action that neither prints nor ends the process. *)
Definition quiet (a : action) : Prop :=
  match a with
  | Printf _ | Exit => False
  | _ => True
  end.

(** The work function sends at most [B] messages per work item. *)
Definition sends_at_most (B : nat) (work : nat -> Host -> list action) : Prop :=
  forall (i : nat) h, (length (sends (work i h)) <= B)%nat.



(** ** The same dispatch with a narrower channel *)




(** ** More of the package *)

(** [h.cmd = command; h.args = args], the assignment [AddCommand] makes. *)
Definition assign (command : string) (cargs : list string) (x : Host) : Host :=
  set_args cargs (set_cmd command x).

(** What [DumpHostStdout] prints for a record:
    [fmt.Printf("Dumping output for cmd '%s' from host %s:\n%s", ...)];
    [%s] prints a [[]byte] as the bytes it holds. *)
Definition dump_host_text (x : Host) : string :=
  "Dumping output for cmd '" +:+ cmd x +:+ "' from host " +:+ Name x +:+ ":"
    +:+ newline +:+ string_of_list_byte (Stdout x).

(** [DumpHostStdout]: the loop has no [return], so it prints for every
    record named [h].  The result is what it writes, one entry for each
    call of [fmt.Printf]. *)
Fixpoint DumpHostStdout_loop (hs : list Host) (h : string) : list string :=
  match hs with
  | [] => []
  | x :: rest =>
      if String.eqb (Name x) h
      then dump_host_text x :: DumpHostStdout_loop rest h
      else DumpHostStdout_loop rest h
  end.

Definition DumpHostStdout (ds : DistShell) (h : string) : list string :=
  DumpHostStdout_loop (HOSTS ds) h.

(** [fmt.Printf("Dumping output for host: %s\n%s", Name, Stdout)] *)
Definition dump_all_text (x : Host) : string :=
  "Dumping output for host: " +:+ Name x +:+ newline
    +:+ string_of_list_byte (Stdout x).

(** [DumpAllStdout]: one [fmt.Printf] for each record, in session order. *)
Fixpoint DumpAllStdout_loop (hs : list Host) : list string :=
  match hs with
  | [] => []
  | x :: rest => dump_all_text x :: DumpAllStdout_loop rest
  end.

Definition DumpAllStdout (ds : DistShell) : list string :=
  DumpAllStdout_loop (HOSTS ds).


(** [strings.Split(s, sep)] for a separator of one byte: the fields between
    the occurrences of the byte, in order; one field more than there are
    occurrences, so the empty string gives one empty field. *)
Fixpoint split_byte (s : string) (c : ascii) : list string :=
  match s with
  | EmptyString => [EmptyString]
  | String a s' =>
      if Ascii.eqb a c then EmptyString :: split_byte s' c
      else match split_byte s' c with
           | field :: rest => String a field :: rest
           | [] => [String a EmptyString]
           end
  end.

(** The fields joined again with the byte between neighbours. *)
Fixpoint join_byte (c : ascii) (l : list string) : string :=
  match l with
  | [] => ""
  | [x] => x
  | x :: rest => x +:+ String c (join_byte c rest)
  end.

(** The occurrences of a byte in a string. *)
Fixpoint count_byte (c : ascii) (s : string) : nat :=
  match s with
  | EmptyString => 0
  | String a s' => (if Ascii.eqb a c then 1 else 0) + count_byte c s'
  end.

Definition nl : ascii := "010"%char.

(** The composite literal [&UtilError{"RunCmdOutput", err}]: the
    declaration of the type is not among the sources, the literal gives
    its two fields by position. *)
Definition UtilError : Type := string * error.

(** [RunCmdOutput(s, arg...)].  [Output s arg] stands for
    [exec.Command(s, arg...).Output()].  The result is [None] when the
    index expression [output[len(output)-1]] is out of range. *)
Definition RunCmdOutput (Output : string -> list string -> list byte * option error)
    (s : string) (arg : list string)
  : option (list string * option UtilError) :=
  let '(execOut, err) := Output s arg in
  match err with
  | Some e =>
      Some ([], Some ("RunCmdOutput",
                      errors_New (s +:+ ": " +:+ e +:+ newline +:+ "output:"
                                    +:+ string_of_list_byte execOut)))
  | None =>
      let output := split_byte (string_of_list_byte execOut) nl in
      match output !! (length output - 1)%nat with
      | Some field =>
          if String.eqb field newline
          then Some (take (length output - 1) output, None)
          else Some (output, None)
      | None => None
      end
  end.


(** ** More on a dispatch *)

(** The records once every work item has run to its end: each with the
    effects of its own work item. *)
Definition final_hosts (work : nat -> Host -> list action)
    (hs0 : list Host) : list Host :=
  imap (fun i h => apply_actions (work i h) h) hs0.

(** The messages of the work items of the first [n] records, in session
    order. *)
Definition messages (work : nat -> Host -> list action) (hs0 : list Host)
    (n : nat) : list string :=
  concat ((fun i => match hs0 !! i with
                    | Some h => sends (work i h)
                    | None => []
                    end) <$> seq 0 n).

(** The messages the work items started have yet to send. *)
Definition unsent (p : list (list action)) : list string :=
  concat (sends <$> p).

(** Every message of a work item started is received, in the channel, or
    yet to be sent, and nothing else is. *)
Definition accounted (work : nat -> Host -> list action) (hs0 : list Host)
    (c : config) : Prop :=
  received (log c) ++ chan c ++ unsent (pool c)
  ≡ₚ messages work hs0 (length (pool c)).

(** The counters of the loop against the log, whatever the work items
    send: [runningCount] counts the launches of the current batch, and the
    receives of the log are those of the batches before it and of the
    drain in progress. *)
Definition count_inv (mb : Z) (N : nat) (c : config) : Prop :=
  length (hosts c) = N
  /\ launched (log c) = seq 0 (length (pool c))
  /\ match pc c with
     | Launch i rc tot =>
         length (pool c) = i /\ tot = Z.of_nat i /\ (i <= N)%nat /\ 0 <= rc
         /\ Z.of_nat (length (received (log c))) + rc = Z.of_nat i
         /\ (rc = 0 \/ (i < N)%nat)
     | Drain i k rc tot =>
         length (pool c) = S i /\ tot = Z.of_nat (S i) /\ (S i <= N)%nat
         /\ 0 <= k <= rc
         /\ Z.of_nat (length (received (log c))) + (rc - k) = Z.of_nat (S i)
     | Returned _ =>
         length (pool c) = N /\ length (received (log c)) = N
     | Exited | Panicked => True
     end.

(** A state with its console left out. *)
Definition without_console (c : config) : config :=
  mkConfig (hosts c) (chan c) (pool c) (pc c) [] (log c).

(** An action that leaves the captured output alone. *)
Definition keeps_Stdout (a : action) : Prop :=
  match a with
  | SetStdout _ => False
  | _ => True
  end.


(** An action that leaves the error of the record alone. *)
Definition keeps_CmdError (a : action) : Prop :=
  match a with
  | SetCmdError _ => False
  | _ => True
  end.

(** The state in which a call ends when [make] panics. *)
Definition panicked (ds : DistShell) : config :=
  mkConfig (HOSTS ds) [] [] Panicked [] [].


(** The messages are where they are in session order: those received
    first, then those in the channel, then those yet to be sent. *)
Definition in_order (work : nat -> Host -> list action) (hs0 : list Host)
    (c : config) : Prop :=
  received (log c) ++ chan c ++ unsent (pool c)
  = messages work hs0 (length (pool c)).

(** * Verification *)

(** ** Identity lookups *)

Lemma AddCommand_loop_found hs h command cargs (i : nat) x :
  hs !! i = Some x ->
  Name x = h ->
  (forall (j : nat) y, (j < i)%nat -> hs !! j = Some y -> Name y <> h) ->
  AddCommand_loop hs h command cargs
  = (<[i := set_args cargs (set_cmd command x)]> hs, true).
Proof.
  revert i. induction hs as [|y hs IH]; intros i Hi Hx Hbefore; [done|].
  destruct i as [|i]; simpl in *.
  - injection Hi as ->. apply String.eqb_eq in Hx. by rewrite Hx.
  - assert (Hy : String.eqb (Name y) h = false).
    { apply String.eqb_neq. apply (Hbefore 0%nat); [lia|done]. }
    rewrite Hy.
    rewrite (IH i); [done..|].
    intros j z Hj Hz. apply (Hbefore (S j)); [lia|done].
Qed.


Lemma GetHostStdout_loop_found hs h (i : nat) x :
  hs !! i = Some x ->
  Name x = h ->
  (forall (j : nat) y, (j < i)%nat -> hs !! j = Some y -> Name y <> h) ->
  GetHostStdout_loop hs h = Stdout x.
Proof.
  revert i. induction hs as [|y hs IH]; intros i Hi Hx Hbefore; [done|].
  destruct i as [|i]; simpl in *.
  - injection Hi as ->. apply String.eqb_eq in Hx. by rewrite Hx.
  - assert (Hy : String.eqb (Name y) h = false).
    { apply String.eqb_neq. apply (Hbefore 0%nat); [lia|done]. }
    rewrite Hy. apply (IH i); [done..|].
    intros j z Hj Hz. apply (Hbefore (S j)); [lia|done].
Qed.

Lemma GetHostStdout_loop_not_found hs h :
  (forall x, x ∈ hs -> Name x <> h) ->
  GetHostStdout_loop hs h = no_output.
Proof.
  induction hs as [|y hs IH]; intros Hno; [done|]. simpl.
  assert (Hy : String.eqb (Name y) h = false).
  { apply String.eqb_neq, Hno. left. }
  rewrite Hy. apply IH. intros x Hx. apply Hno. by right.
Qed.

(** Every record has a first record of its own name at or before it. *)
Lemma first_match (hs : list Host) h :
  (exists x, x ∈ hs /\ Name x = h) ->
  exists (i : nat) x, hs !! i = Some x /\ Name x = h /\
    forall (j : nat) y, (j < i)%nat -> hs !! j = Some y -> Name y <> h.
Proof.
  induction hs as [|y hs IH]; intros (x & Hx & Hn).
  - by apply elem_of_nil in Hx.
  - destruct (decide (Name y = h)) as [Hy|Hy].
    + exists 0%nat, y. split_and!; [done..|]. intros j z Hj. lia.
    + apply elem_of_cons in Hx as [->|Hx]; [done|].
      destruct IH as (i & z & Hi & Hz & Hb); [by eauto|].
      exists (S i), z. split_and!; [done..|].
      intros [|j] w Hj Hw; simpl in Hw; [by injection Hw as <-|].
      apply (Hb j); [lia|done].
Qed.

Lemma AddCommand_loop_keeps hs h command cargs :
  (fun x => (Name x, Stdout x, CmdError x)) <$> (AddCommand_loop hs h command cargs).1
  = (fun x => (Name x, Stdout x, CmdError x)) <$> hs.
Proof.
  induction hs as [|y hs IH]; [done|]. simpl.
  destruct (String.eqb (Name y) h); [done|].
  destruct (AddCommand_loop hs h command cargs) as [rest found].
  simpl in *. by f_equal.
Qed.

Lemma buildHost_fresh hList :
  (fun x => (Name x, Stdout x, CmdError x)) <$> buildHost hList
  = (fun n => (n, [], None)) <$> hList.
Proof. induction hList as [|n l IH]; [done|]. simpl. by f_equal. Qed.

Lemma AddCommands_keeps asg ds :
  (fun x => (Name x, Stdout x, CmdError x)) <$> HOSTS (AddCommands ds asg)
  = (fun x => (Name x, Stdout x, CmdError x)) <$> HOSTS ds.
Proof.
  revert ds. induction asg as [|[[h command] cargs] asg IH]; intros ds; [done|].
  simpl. rewrite IH. unfold AddCommand.
  pose proof (AddCommand_loop_keeps (HOSTS ds) h command cargs) as Hk.
  destruct (AddCommand_loop (HOSTS ds) h command cargs) as [hs found].
  done.
Qed.

(** ** The output accessor *)

(** C8, as the code has it.  An identity that no record carries yields the
    sentinel [no output].  An identity of a session on which nothing ran yet
    (built by [New], then any assignments) yields the captured output of its
    record, which is empty, not the sentinel.  [GetHostStdout] is total: it
    has no error result. *)
Theorem GetHostStdout_unknown_or_never_ran :
  (forall ds h,
      (forall x, x ∈ HOSTS ds -> Name x <> h) ->
      GetHostStdout ds h = no_output)
  /\ (forall hList asg h,
      h ∈ hList ->
      GetHostStdout (AddCommands (New hList) asg) h = []).
Proof.
  split.
  - intros ds h Hno. by apply GetHostStdout_loop_not_found.
  - intros hList asg h Hin.
    pose proof (AddCommands_keeps asg (New hList)) as Hk.
    simpl in Hk. rewrite buildHost_fresh in Hk.
    set (hs := HOSTS (AddCommands (New hList) asg)) in *.
    assert (Hall : forall x, x ∈ hs -> Name x ∈ hList /\ Stdout x = []).
    { intros x Hx.
      apply (list_elem_of_fmap_2 (fun x => (Name x, Stdout x, CmdError x))) in Hx.
      rewrite Hk in Hx. apply list_elem_of_fmap in Hx as (n & Heq & Hn).
      by injection Heq as -> -> _. }
    destruct (first_match hs h) as (i & x & Hi & Hx & Hb).
    { apply (list_elem_of_fmap_2 (fun n : string => (n, @nil byte, @None error))) in Hin.
      rewrite <- Hk in Hin. apply list_elem_of_fmap in Hin as (x & Heq & Hx).
      exists x. split; [done|]. by injection Heq as <- _ _. }
    unfold GetHostStdout. fold hs.
    rewrite (GetHostStdout_loop_found hs h i x Hi Hx Hb).
    apply Hall. by eapply list_elem_of_lookup_2.
Qed.

Lemma GetHostStdout_unknown_or_never_ran_witness :
  GetHostStdout (New ["h1"]) "h2" = no_output
  /\ GetHostStdout (AddCommands (New ["h1"; "h2"]) [("h2", "df", ["-h"])]) "h2" = [].
Proof.
  split.
  - apply (proj1 GetHostStdout_unknown_or_never_ran).
    intros x Hx. simpl in Hx. apply list_elem_of_singleton in Hx as ->. done.
  - apply (proj2 GetHostStdout_unknown_or_never_ran).
    apply list_elem_of_In. simpl. auto.
Defined.

(** C8 as stated fails: the record of [h1] never ran, and the accessor
    returns its empty output, which is not the sentinel. *)
Lemma GetHostStdout_never_ran_not_sentinel :
  "h1" ∈ ["h1"] /\ GetHostStdout (New ["h1"]) "h1" <> no_output.
Proof. split; [by left|]. vm_compute. discriminate. Qed.

(** C10: with several records of one identity, the lookups act on the
    first.  For the first record [x] named [h], at index [i]:
    [AddCommand] puts the command and the arguments on that record and
    leaves every other index, later duplicates included, as it was, and
    [GetHostStdout] returns the captured output of [x]. *)
Theorem lookups_act_on_first_match ds h command cargs (i : nat) x :
  HOSTS ds !! i = Some x ->
  Name x = h ->
  (forall (j : nat) y, (j < i)%nat -> HOSTS ds !! j = Some y -> Name y <> h) ->
  (AddCommand ds h command cargs).2 = true
  /\ HOSTS (AddCommand ds h command cargs).1 !! i
     = Some (set_args cargs (set_cmd command x))
  /\ (forall j : nat, j <> i ->
        HOSTS (AddCommand ds h command cargs).1 !! j = HOSTS ds !! j)
  /\ length (HOSTS (AddCommand ds h command cargs).1) = length (HOSTS ds)
  /\ GetHostStdout ds h = Stdout x.
Proof.
  intros Hi Hx Hb. unfold AddCommand, GetHostStdout.
  rewrite (AddCommand_loop_found _ _ command cargs i x Hi Hx Hb). simpl.
  split_and!.
  - done.
  - apply list_lookup_insert_eq. by eapply lookup_lt_Some.
  - intros j Hj. by apply list_lookup_insert_ne.
  - apply length_insert.
  - by apply (GetHostStdout_loop_found _ _ i).
Qed.

Lemma lookups_act_on_first_match_witness :
  let ds := mkDistShell
              [mkHost "a" (list_byte_of_string "one") "" [] None;
               mkHost "b" [] "" [] None;
               mkHost "a" (list_byte_of_string "two") "" [] None] true 50 in
  HOSTS (AddCommand ds "a" "df" ["-h"]).1 !! 2%nat = HOSTS ds !! 2%nat
  /\ GetHostStdout ds "a" = list_byte_of_string "one".
Proof.
  intros ds.
  destruct (lookups_act_on_first_match ds "a" "df" ["-h"] 0
              (mkHost "a" (list_byte_of_string "one") "" [] None))
    as (_ & _ & Hother & _ & Hout).
  - reflexivity.
  - reflexivity.
  - intros j y Hj. lia.
  - split; [apply Hother; lia | exact Hout].
Defined.

(** ** The failure report *)

Lemma string_app_cons a s t : String a s +:+ t = String a (s +:+ t).
Proof. reflexivity. Qed.

Lemma string_app_nil_l t : "" +:+ t = t.
Proof. reflexivity. Qed.

Lemma string_app_nil_r s : s +:+ "" = s.
Proof. induction s as [|a s IH]; [done|]. by rewrite string_app_cons, IH. Qed.

Lemma string_app_assoc s t u : (s +:+ t) +:+ u = s +:+ (t +:+ u).
Proof.
  induction s as [|a s IH]; [done|]. by rewrite !string_app_cons, IH.
Qed.

Lemma string_app_eq_nil s t : s +:+ t = "" -> s = "" /\ t = "".
Proof. destruct s; [done|]. rewrite string_app_cons. discriminate. Qed.

(** Every failed identity followed by a comma. *)
Lemma failedHosts_fold hs acc :
  fold_left (fun acc h =>
               match CmdError h with
               | Some _ => acc +:+ Name h +:+ ","
               | None => acc
               end) hs acc
  = acc +:+ foldr (fun n rest => n +:+ "," +:+ rest) "" (failed_names hs).
Proof.
  revert acc. induction hs as [|h hs IH]; intros acc; simpl.
  - by rewrite string_app_nil_r.
  - rewrite IH. unfold failed_names.
    destruct (CmdError h) as [e|] eqn:He.
    + rewrite filter_cons_True by (by rewrite He).
      simpl. by rewrite !string_app_assoc.
    + by rewrite filter_cons_False by (rewrite He; intros Hn; by apply Hn).
Qed.

Lemma commas_join l :
  l <> [] ->
  foldr (fun n rest => n +:+ "," +:+ rest) "" l = join_comma l +:+ ",".
Proof.
  induction l as [|n l IH]; [done|]. intros _. simpl.
  destruct l as [|m l]; [done|].
  rewrite IH by done. by rewrite !string_app_assoc.
Qed.

Lemma last_byte_app s t : t <> "" -> last_byte (s +:+ t) = last_byte t.
Proof.
  intros Ht. induction s as [|a s IH]; [done|].
  rewrite string_app_cons. simpl. rewrite IH.
  destruct (s +:+ t) eqn:E; [|done].
  by apply string_app_eq_nil in E as [_ ?].
Qed.

Lemma last_byte_join l n :
  last l = Some n -> n <> "" -> last_byte (join_comma l) = last_byte n.
Proof.
  induction l as [|m l IH]; [done|]. intros Hl Hn.
  destruct l as [|m' l]; simpl in *; [by injection Hl as ->|].
  rewrite last_byte_app.
  - rewrite last_byte_app; [by apply IH|].
    intros E. specialize (IH Hl Hn). destruct l; simpl in *.
    + injection Hl as ->. done.
    + by apply string_app_eq_nil in E as [_ [? _]%string_app_eq_nil].
  - intros [? _]%string_app_eq_nil. done.
Qed.

Lemma trimRightByte_snoc s a c :
  last_byte s = Some a -> a <> c ->
  trimRightByte (s +:+ String c "") c = s.
Proof.
  intros Hl Hne. induction s as [|b s IH]; [done|].
  rewrite string_app_cons.
  destruct s as [|b' s].
  - simpl in Hl. injection Hl as ->.
    change (trimRightByte (String a (String c "")) c = String a "").
    simpl. rewrite Ascii.eqb_refl. by destruct (Ascii.eqb_spec a c).
  - change (match trimRightByte (String b' s +:+ String c "") c with
            | "" => if Ascii.eqb b c then "" else String b ""
            | String _ _ as t => String b t
            end = String b (String b' s)).
    by rewrite IH.
Qed.

Lemma failedHosts_commas hs :
  failedHosts hs = foldr (fun n rest => n +:+ "," +:+ rest) "" (failed_names hs).
Proof. unfold failedHosts. by rewrite failedHosts_fold. Qed.

Lemma failed_names_nil hs :
  failed_names hs = [] <-> forall h, h ∈ hs -> CmdError h = None.
Proof.
  unfold failed_names. split.
  - intros Hnil h Hh. apply fmap_nil_inv in Hnil.
    destruct (CmdError h) eqn:He; [|done].
    assert (Hin : h ∈ filter (fun h => CmdError h <> None) hs).
    { apply list_elem_of_filter. split; [by rewrite He|done]. }
    rewrite Hnil in Hin. by apply elem_of_nil in Hin.
  - intros Hall. induction hs as [|h hs IH]; [done|].
    rewrite filter_cons_False.
    + apply IH. intros x Hx. apply Hall. by right.
    + intros Hn. apply Hn, Hall. by left.
Qed.

Lemma report_None hs : report hs = None <-> failed_names hs = [].
Proof.
  unfold report. rewrite failedHosts_commas.
  destruct (failed_names hs) as [|n l]; simpl; [done|].
  destruct (String.eqb_spec (n +:+ "," +:+ foldr (fun n rest => n +:+ "," +:+ rest) "" l) "")
    as [E|E]; [|done].
  by apply string_app_eq_nil in E as [_ [? _]%string_app_eq_nil].
Qed.

(** C3, amended.  The dispatch returns [report] of the records as the scan
    finds them.  The report is [nil] exactly when no record has a
    [CmdError].  Otherwise its text lists the identities of the failed
    records in session order, one entry per failed record, separated by
    commas, provided the last failed identity ends in a byte other than a
    comma. *)
Theorem report_lists_failed_hosts hs :
  (forall mon mb work c c' r,
      step_controller mon mb work c = Some c' ->
      pc c' = Returned r -> hosts c = hs ->
      r = report hs /\ hosts c' = hs)
  /\ (report hs = None <-> forall h, h ∈ hs -> CmdError h = None)
  /\ (forall n a,
        last (failed_names hs) = Some n ->
        last_byte n = Some a -> a <> comma ->
        report hs = Some (join_comma (failed_names hs))).
Proof.
  split_and!.
  - intros mon mb work c c' r Hstep Hret <-.
    unfold step_controller in Hstep.
    destruct (pc c) as [i rc tot|i k rc tot| | |]; try discriminate.
    + destruct (hosts c !! i).
      * injection Hstep as <-. simpl in Hret. by destruct (_ || _).
      * injection Hstep as <-. simpl in Hret. by injection Hret as <-.
    + destruct (k <? rc).
      * destruct (chan c); [discriminate|].
        injection Hstep as <-. discriminate.
      * injection Hstep as <-. discriminate.
  - rewrite report_None. apply failed_names_nil.
  - intros n a Hlast Hbyte Hne.
    assert (Hnil : failed_names hs <> []) by (by intros E; rewrite E in Hlast).
    assert (Hn : n <> "") by (by intros ->).
    unfold report. rewrite failedHosts_commas, commas_join by done.
    destruct (String.eqb_spec (join_comma (failed_names hs) +:+ ",") "")
      as [E|_]; [by apply string_app_eq_nil in E as [_ ?]|].
    unfold errors_New. f_equal.
    apply (trimRightByte_snoc _ a); [|done].
    by rewrite (last_byte_join _ n).
Qed.

Lemma report_lists_failed_hosts_witness :
  let hs := [mkHost "h1" [] "df" [] (Some "exit status 1");
             mkHost "h2" [] "df" [] None;
             mkHost "h3" [] "df" [] (Some "exit status 255")] in
  report hs = Some "h1,h3".
Proof.
  intros hs.
  apply (proj2 (proj2 (report_lists_failed_hosts hs)) "h3" "3"%char).
  - reflexivity.
  - reflexivity.
  - discriminate.
Defined.

(** C3 as stated fails on a session that lists one host twice: both
    records fail and the identity is reported twice. *)
Lemma report_repeats_duplicate_identity :
  ~ report_as_specified [mkHost "h1" [] "" [] (Some "exit status 1");
                         mkHost "h1" [] "" [] (Some "exit status 1")].
Proof.
  intros [_ Hnodup]. vm_compute in Hnodup.
  apply NoDup_cons in Hnodup as [Hnotin _]. apply Hnotin. by left.
Qed.

(** The trailing commas are trimmed all at once: a failed identity that is
    empty, as [strings.Split] yields for a host string ending in a comma,
    vanishes from the text. *)
Example report_trims_every_trailing_comma :
  report [mkHost "a" [] "" [] (Some "e"); mkHost "" [] "" [] (Some "e")]
  = Some "a".
Proof. reflexivity. Qed.

(** ** The work items *)

Lemma runCMD_with_command E i h p :
  cmd h <> "" ->
  LookPath E "ssh" = Some p ->
  runCMD E i h
  = Exec p (ssh_argv h) ::
    match CombinedOutput E i p (ssh_argv h) with
    | (out, Some err) =>
        [Send ("ERROR: Failed to exec command on host " +:+ Name h +:+ ": " +:+ err);
         SetStdout out; SetCmdError err]
    | (out, None) =>
        [SetStdout out;
         Send ("INFO: completed running command on host " +:+ Name h)]
    end.
Proof.
  intros Hcmd Hp. unfold runCMD. rewrite Hp.
  apply String.eqb_neq in Hcmd. by rewrite Hcmd.
Qed.

Lemma runCMD_without_command E i h p :
  cmd h = "" ->
  LookPath E "ssh" = Some p ->
  runCMD E i h
  = Send ("ERROR: host " +:+ Name h +:+ " has no available command to execute") ::
    SetCmdError (errors_New "no available command to execute") ::
    Exec p (ssh_argv h) ::
    match CombinedOutput E i p (ssh_argv h) with
    | (out, Some err) =>
        [Send ("ERROR: Failed to exec command on host " +:+ Name h +:+ ": " +:+ err);
         SetStdout out; SetCmdError err]
    | (out, None) =>
        [SetStdout out;
         Send ("INFO: completed running command on host " +:+ Name h)]
    end.
Proof.
  intros Hcmd Hp. unfold runCMD. rewrite Hp.
  apply String.eqb_eq in Hcmd. by rewrite Hcmd.
Qed.

Lemma runCMD_records E i h p :
  cmd h <> "" ->
  LookPath E "ssh" = Some p ->
  apply_actions (runCMD E i h) h
  = recorded_by_runCMD (CombinedOutput E i p (ssh_argv h)).1
      (CombinedOutput E i p (ssh_argv h)).2 h.
Proof.
  intros Hcmd Hp. rewrite (runCMD_with_command E i h p Hcmd Hp).
  by destruct (CombinedOutput E i p (ssh_argv h)) as [out [err|]].
Qed.

(** C1 fails on the code.  For a host without a command, [runCMD] sends the
    failure message and sets the error, and then goes on: it runs [ssh] with
    the empty command and sends a second message.  Here [ssh] succeeds, so
    the second message reports a completed command. *)
Theorem runCMD_without_command_runs_ssh :
  let E := mkEnv (fun _ => Some "/usr/bin/ssh")
                 (fun _ _ _ => ([], None)) (fun _ _ _ => ("", None)) in
  runCMD E 0 (zeroHost "h1")
  = [Send "ERROR: host h1 has no available command to execute";
     SetCmdError "no available command to execute";
     Exec "/usr/bin/ssh"
       ["-o"; "StrictHostKeyChecking=no"; "-o"; "BatchMode=yes"; "h1"; ""];
     SetStdout [];
     Send "INFO: completed running command on host h1"].
Proof. reflexivity. Qed.

(** C7, amended.  The work item of [GetFile] sends one status message.  On
    a failure of [scp] it sets [CmdError] and leaves [Stdout] as it was: the
    output of [scp] goes into the status message only.  On success it
    leaves the whole record as it was. *)
Theorem getFileTask_records E SCP filestring destination (i : nat) h :
  let argv := scp_argv h filestring destination in
  let acts := getFileTask E SCP filestring destination i h in
  match kitutils_RunCMD E i SCP argv with
  | (cmdout, Some cmderr) =>
      apply_actions acts h = set_CmdError (Some cmderr) h
      /\ sends acts = [Name h +:+ ": ERROR " +:+ cmdout +:+ ": " +:+ cmderr]
  | (_, None) =>
      apply_actions acts h = h
      /\ sends acts = [Name h +:+ ": SUCCESS"]
  end.
Proof.
  unfold getFileTask.
  destruct (kitutils_RunCMD E i SCP (scp_argv h filestring destination))
    as [cmdout [cmderr|]]; simpl; [done|].
  by destruct h.
Qed.

(** C7 as stated fails: [scp] fails with some output, and the record keeps
    its empty [Stdout], where [runCMD] would have stored the output. *)
Lemma getFileTask_drops_output :
  let E := mkEnv (fun _ => Some "/usr/bin/scp") (fun _ _ _ => ([], None))
                 (fun _ _ _ => ("lost connection", Some "exit status 1")) in
  ~ getFile_records_like_runCMD E "/usr/bin/scp" "/etc/hosts" "/tmp"
      0 (zeroHost "h1").
Proof. intros E H. vm_compute in H. discriminate H. Qed.

(** ** Runs and reachable states *)

Section Runs.

Variable mon : bool.
Variable mb : Z.
Variable work : nat -> Host -> list action.

Lemma run_app s1 s2 c :
  run mon mb work (s1 ++ s2) c
  = run mon mb work s1 c ≫= run mon mb work s2.
Proof.
  revert c. induction s1 as [|t s1 IH]; intros c; [done|]. simpl.
  destruct (step mon mb work t c) as [c'|]; simpl; [apply IH|done].
Qed.




(** A property of the first state that every step keeps holds of every
    reachable state. *)
Lemma reachable_invariant (P : config -> Prop) c0 :
  P c0 ->
  (forall c t c',
      reachable_from mon mb work c0 c -> P c ->
      step mon mb work t c = Some c' -> P c') ->
  forall c, reachable_from mon mb work c0 c -> P c.
Proof.
  intros H0 Hstep c [s Hs]. revert c Hs.
  induction s as [|t s IH] using rev_ind; intros c Hs.
  - by injection Hs as <-.
  - rewrite run_app in Hs.
    destruct (run mon mb work s c0) as [c1|] eqn:H1; [|done].
    simpl in Hs. destruct (step mon mb work t c1) as [c2|] eqn:H2; [|done].
    injection Hs as <-.
    apply (Hstep c1 t c2); [by exists s|by apply IH|done].
Qed.

(** A step of a work item touches the record of that item only, and
    leaves the pool to [step_worker]. *)
Lemma step_action_spec i a c c' :
  step_action mon mb i a c = Some c' ->
  hosts c' = alter (apply_action a) i (hosts c)
  /\ pool c' = pool c
  /\ pc_after_action (pc c) (pc c')
  /\ (a = Exit -> pc c' = Exited).
Proof.
  unfold step_action, pc_after_action. destruct a as [s|out|e|p argv|s|].
  - unfold step_send. intros H.
    assert (Hid : alter (apply_action (Send s)) i (hosts c) = hosts c).
    { by apply list_alter_id. }
    rewrite Hid.
    destruct (0 <? mb).
    + destruct (_ <? mb); [|done]. injection H as <-. simpl.
      split_and!; auto; done.
    + destruct (pc c) as [| j k rc tot | | |] eqn:Hpc; try done.
      destruct (k <? rc); [|done].
      injection H as <-. simpl. split_and!; [done..| |done].
      right. right. by exists j, k, rc, tot.
  - intros H. injection H as <-. simpl. split_and!; auto; done.
  - intros H. injection H as <-. simpl. split_and!; auto; done.
  - intros H. injection H as <-.
    split_and!; [symmetry; by apply list_alter_id|done|auto|done].
  - intros H. injection H as <-. simpl.
    split_and!; [symmetry; by apply list_alter_id|done|auto|done].
  - intros H. injection H as <-. simpl.
    split_and!; [symmetry; by apply list_alter_id|done|auto|done].
Qed.

Lemma step_worker_spec i c c' :
  step_worker mon mb i c = Some c' ->
  exists a rest,
    pool c !! i = Some (a :: rest)
    /\ hosts c' = alter (apply_action a) i (hosts c)
    /\ pool c' = <[i := rest]> (pool c)
    /\ pc_after_action (pc c) (pc c')
    /\ (a = Exit -> pc c' = Exited)
    /\ alive c = true.
Proof.
  unfold step_worker. destruct (alive c) eqn:Halive; [|done].
  destruct (pool c !! i) as [[|a rest]|] eqn:Hpool; try done.
  destruct (step_action mon mb i a c) as [c1|] eqn:Hact; [|done].
  simpl. intros H. injection H as <-.
  apply step_action_spec in Hact as (Hh & Hp & Hpc & Hexit).
  exists a, rest. simpl. rewrite Hp. by split_and!.
Qed.

End Runs.

Lemma apply_actions_snoc acts a h :
  apply_actions (acts ++ [a]) h = apply_action a (apply_actions acts h).
Proof. unfold apply_actions. by rewrite fold_left_app. Qed.

Lemma apply_actions_keeps acts h :
  Name (apply_actions acts h) = Name h
  /\ cmd (apply_actions acts h) = cmd h
  /\ args (apply_actions acts h) = args h.
Proof.
  revert h. induction acts as [|a acts IH]; intros h; [done|].
  simpl. destruct (IH (apply_action a h)) as (-> & -> & ->).
  by destruct a.
Qed.

Section Ownership.

Variable mon : bool.
Variable mb : Z.
Variable work : nat -> Host -> list action.
Variable hs0 : list Host.

Lemma owned_start : owned work hs0 (start hs0).
Proof.
  unfold owned, start. simpl. split_and!; [done|lia| |done].
  intros i h0 Hi. by destruct i.
Qed.

Lemma owned_step_controller c c' :
  owned work hs0 c ->
  step_controller mon mb work c = Some c' ->
  owned work hs0 c'.
Proof.
  intros (Hlen & Hpool & Hrec & Hpc) Hstep.
  unfold step_controller in Hstep.
  destruct (pc c) as [i rc tot|i k rc tot| | |] eqn:Epc; try done.
  - destruct (hosts c !! i) as [h|] eqn:Hi.
    + assert (Hlt : (i < length hs0)%nat).
      { rewrite <- Hlen. by eapply lookup_lt_Some. }
      destruct (lookup_lt_is_Some_2 hs0 i Hlt) as [h0 Hh0].
      assert (h = h0) as ->.
      { specialize (Hrec i h0 Hh0).
        rewrite lookup_ge_None_2 in Hrec by lia. congruence. }
      injection Hstep as <-. unfold owned. simpl.
      rewrite length_app. simpl. split_and!; [done|lia| |].
      * intros j x Hj. specialize (Hrec j x Hj).
        destruct (decide (j < i)%nat) as [Hji|Hji].
        { rewrite lookup_app_l by lia.
          destruct (pool c !! j); [|done].
          destruct Hrec as (done & ? & ? & Hex). exists done.
          split_and!; [done..|]. intros Hin. by specialize (Hex Hin). }
        destruct (decide (j = i)) as [->|Hne].
        { rewrite lookup_app_r by lia.
          replace (i - length (pool c))%nat with 0%nat by lia. simpl.
          exists []. simpl. split_and!; [congruence|congruence|].
          by intros ?%elem_of_nil. }
        rewrite lookup_ge_None_2 by (rewrite length_app; simpl; lia).
        rewrite lookup_ge_None_2 in Hrec by lia. done.
      * destruct (_ || _); simpl; lia.
    + injection Hstep as <-. unfold owned. simpl.
      split_and!; [done..| |].
      * intros j x Hj. specialize (Hrec j x Hj).
        destruct (pool c !! j); [|done].
        destruct Hrec as (done & ? & ? & Hex). exists done.
        split_and!; [done..|]. intros Hin. by specialize (Hex Hin).
      * apply lookup_ge_None_1 in Hi. lia.
  - assert (Hrec' : forall (j : nat) x, hs0 !! j = Some x ->
        forall p, match pool c !! j with
        | Some rest =>
            exists done, work j x = done ++ rest
                         /\ hosts c !! j = Some (apply_actions done x)
                         /\ (Exit ∈ done -> p = Exited)
        | None => hosts c !! j = Some x
        end).
    { intros j x Hj p. specialize (Hrec j x Hj).
      destruct (pool c !! j); [|done].
      destruct Hrec as (done & ? & ? & Hex). exists done.
      split_and!; [done..|]. intros Hin. by specialize (Hex Hin). }
    destruct (k <? rc).
    + destruct (chan c) as [|s rest]; [done|].
      injection Hstep as <-. unfold owned. simpl.
      split_and!; [done..| |done]. intros j x Hj. by apply Hrec'.
    + injection Hstep as <-. unfold owned. simpl.
      split_and!; [done..| |done]. intros j x Hj. by apply Hrec'.
Qed.

Lemma owned_step_worker j c c' :
  owned work hs0 c ->
  step_worker mon mb j c = Some c' ->
  owned work hs0 c'.
Proof.
  intros (Hlen & Hpool & Hrec & Hpc) Hstep.
  apply step_worker_spec in Hstep
    as (a & rest & Hj & Hhosts & Hpool' & Hafter & Hexit & Halive).
  assert (Hlive : pc c <> Exited).
  { intros E. unfold alive in Halive. by rewrite E in Halive. }
  assert (Hjlt : (j < length (pool c))%nat) by (by eapply lookup_lt_Some).
  unfold owned. rewrite Hhosts, Hpool', length_alter, length_insert.
  split_and!; [done..| |].
  - intros i h0 Hi. specialize (Hrec i h0 Hi).
    destruct (decide (i = j)) as [->|Hne].
    + rewrite list_lookup_insert_eq by done.
      rewrite Hj in Hrec. destruct Hrec as (done & Hwork & Hhost & Hex).
      exists (done ++ [a]). rewrite <- app_assoc. split_and!; [done| |].
      * rewrite list_lookup_alter_eq, Hhost. simpl.
        by rewrite apply_actions_snoc.
      * intros [Hin|Hin%list_elem_of_singleton]%elem_of_app;
          [by specialize (Hex Hin)|]. by apply Hexit.
    + rewrite list_lookup_insert_ne by done.
      rewrite list_lookup_alter_ne by done.
      destruct (pool c !! i); [|done].
      destruct Hrec as (done & ? & ? & Hex). exists done.
      split_and!; [done..|]. intros Hin. by specialize (Hex Hin).
  - destruct Hafter as [->|[->|(i & k & rc & tot & Hp & ->)]]; [done..|].
    by rewrite Hp in Hpc.
Qed.

Lemma owned_reachable c :
  reachable_from mon mb work (start hs0) c -> owned work hs0 c.
Proof.
  apply reachable_invariant; [apply owned_start|].
  intros c1 [|j] c2 _ Hown Hstep; simpl in Hstep.
  - by eapply owned_step_controller.
  - by eapply owned_step_worker.
Qed.

(** Once the call has returned and every goroutine has ended, each record
    is the record of the session with all the actions of its work item
    applied. *)
Lemma settled_hosts c (i : nat) h0 :
  reachable_from mon mb work (start hs0) c ->
  settled c ->
  hs0 !! i = Some h0 ->
  hosts c !! i = Some (apply_actions (work i h0) h0).
Proof.
  intros Hreach [[r Hr] Hdone] Hi.
  destruct (owned_reachable c Hreach) as (Hlen & Hpool & Hrec & Hpc).
  rewrite Hr in Hpc. specialize (Hrec i h0 Hi).
  destruct (pool c !! i) as [rest|] eqn:Hp.
  - destruct Hrec as (done & Hwork & Hhost & _).
    rewrite Forall_lookup in Hdone. rewrite (Hdone i rest Hp) in Hwork.
    rewrite app_nil_r in Hwork. by rewrite Hwork.
  - apply lookup_ge_None_1 in Hp. apply lookup_lt_Some in Hi. lia.
Qed.

(** No step of a dispatch changes the identity, the command or the
    arguments of a record. *)
Lemma dispatch_keeps_commands c :
  reachable_from mon mb work (start hs0) c ->
  (fun h => (Name h, cmd h, args h)) <$> hosts c
  = (fun h => (Name h, cmd h, args h)) <$> hs0.
Proof.
  intros Hreach.
  destruct (owned_reachable c Hreach) as (Hlen & Hpool & Hrec & Hpc).
  apply list_eq. intros i. rewrite !list_lookup_fmap.
  destruct (hs0 !! i) as [h0|] eqn:Hi.
  - specialize (Hrec i h0 Hi).
    destruct (pool c !! i) as [rest|].
    + destruct Hrec as (done & _ & -> & _). simpl.
      by destruct (apply_actions_keeps done h0) as (-> & -> & ->).
    + by rewrite Hrec.
  - apply lookup_ge_None_1 in Hi.
    by rewrite lookup_ge_None_2 by lia.
Qed.

End Ownership.

Section Settled.

Variable mon : bool.
Variable mb : Z.
Variable work : nat -> Host -> list action.

(** A process that has ended takes no step. *)
Lemma run_dead sched c c' :
  alive c = false ->
  run mon mb work sched c = Some c' -> sched = [] /\ c' = c.
Proof.
  intros Hdead Hrun. destruct sched as [|t sched].
  - by injection Hrun as <-.
  - simpl in Hrun.
    assert (Hnone : step mon mb work t c = None).
    { destruct t as [|i]; simpl.
      - unfold step_controller. unfold alive in Hdead.
        by destruct (pc c).
      - unfold step_worker. by rewrite Hdead. }
    by rewrite Hnone in Hrun.
Qed.

(** A dispatch does not settle when a work item ends the process. *)
Lemma settled_no_Exit hs0 c (i : nat) h0 :
  reachable_from mon mb work (start hs0) c ->
  settled c ->
  hs0 !! i = Some h0 ->
  Exit ∉ work i h0.
Proof.
  intros Hreach [[r Hr] Hdone] Hi Hin.
  destruct (owned_reachable mon mb work hs0 c Hreach)
    as (Hlen & Hpool & Hrec & Hpc).
  rewrite Hr in Hpc. specialize (Hrec i h0 Hi).
  destruct (pool c !! i) as [rest|] eqn:Hp.
  - destruct Hrec as (done & Hwork & _ & Hex).
    rewrite Forall_lookup in Hdone. rewrite (Hdone i rest Hp) in Hwork.
    rewrite app_nil_r in Hwork. rewrite Hwork in Hin.
    specialize (Hex Hin). congruence.
  - apply lookup_ge_None_1 in Hp. apply lookup_lt_Some in Hi. lia.
Qed.

End Settled.

(** What the runs of [Execute] and [GetFile] reach is reachable from the
    start of the loop, unless the call ended before the loop. *)
Lemma Execute_run_cases E ds sched c :
  Execute_run E ds sched = Some c ->
  (alive c = false /\ hosts c = HOSTS ds /\ pool c = [])
  \/ (0 <= maxBatch ds
      /\ reachable_from (monitor ds) (maxBatch ds) (runCMD E)
           (start (HOSTS ds)) c).
Proof.
  unfold Execute_run, Execute_start. intros Hrun.
  destruct (maxBatch ds <? 0) eqn:Hmb.
  - left. by apply run_dead in Hrun as [_ ->].
  - right. split; [lia|]. by exists sched.
Qed.

Lemma GetFile_run_cases E ds filestring destination sched c :
  GetFile_run E ds filestring destination sched = Some c ->
  (alive c = false /\ hosts c = HOSTS ds /\ pool c = [])
  \/ (0 <= maxBatch ds
      /\ (exists SCP, LookPath E "scp" = Some SCP)
      /\ reachable_from (monitor ds) (maxBatch ds)
           (GetFile_work E filestring destination) (start (HOSTS ds)) c).
Proof.
  unfold GetFile_run, GetFile_start. intros Hrun.
  destruct (maxBatch ds <? 0) eqn:Hmb.
  - left. by apply run_dead in Hrun as [_ ->].
  - destruct (LookPath E "scp") as [SCP|] eqn:Hscp.
    + right. split_and!; [lia|by exists SCP|by exists sched].
    + left. by apply run_dead in Hrun as [_ ->].
Qed.

Lemma settled_alive c : settled c -> alive c = true.
Proof. intros [[r Hr] _]. unfold alive. by rewrite Hr. Qed.

(** ** The error of a record after a dispatch *)

(** On a failure [runCMD] sends its message before it writes [Stdout] and
    [CmdError].  The controlling goroutine may receive the message and scan
    the records in between: the call then returns [nil], and the record
    gets its error afterwards. *)
Example Execute_may_scan_before_the_error_is_written :
  let E := mkEnv (fun _ => Some "/usr/bin/ssh")
                 (fun _ _ _ => ([], Some "exit status 1"))
                 (fun _ _ _ => ("", None)) in
  let ds := (AddCommand (New ["h1"]) "h1" "false" []).1 in
  (fun c => (pc c, CmdError <$> hosts c))
    <$> Execute_run E ds
          [Controller; Worker 0; Worker 0; Controller; Controller; Controller;
           Worker 0; Worker 0]
  = Some (Returned None, [Some "exit status 1"]).
Proof. reflexivity. Qed.

(** C2, amended.  Once a dispatch has settled, the error of a record is the
    error of the work item when it failed, and what it was before the
    dispatch when it succeeded: a success does not clear an earlier error.
    For [Execute] this is for the records that have a command; a dispatch
    that settles found its external program. *)
Theorem lastError_after_dispatch E ds (i : nat) h0 :
  HOSTS ds !! i = Some h0 ->
  (forall sched c,
      Execute_run E ds sched = Some c -> settled c -> cmd h0 <> "" ->
      exists p h,
        LookPath E "ssh" = Some p /\ hosts c !! i = Some h
        /\ CmdError h = match (CombinedOutput E i p (ssh_argv h0)).2 with
                        | Some err => Some err
                        | None => CmdError h0
                        end)
  /\ (forall filestring destination sched c,
      GetFile_run E ds filestring destination sched = Some c -> settled c ->
      exists p h,
        LookPath E "scp" = Some p /\ hosts c !! i = Some h
        /\ CmdError h
           = match (kitutils_RunCMD E i p
                      (scp_argv h0 filestring destination)).2 with
             | Some err => Some err
             | None => CmdError h0
             end).
Proof.
  intros Hi. split.
  - intros sched c Hrun Hset Hcmd.
    apply Execute_run_cases in Hrun as [(Hdead & _)|(_ & Hreach)].
    { apply settled_alive in Hset. congruence. }
    pose proof (settled_hosts _ _ _ _ c i h0 Hreach Hset Hi) as Hh.
    pose proof (settled_no_Exit _ _ _ _ c i h0 Hreach Hset Hi) as Hex.
    destruct (LookPath E "ssh") as [p|] eqn:Hp.
    + exists p, (apply_actions (runCMD E i h0) h0). split_and!; [done..|].
      rewrite (runCMD_records E i h0 p Hcmd Hp).
      by destruct (CombinedOutput E i p (ssh_argv h0)) as [out [err|]].
    + exfalso. apply Hex. unfold runCMD. rewrite Hp.
      apply elem_of_app. right. right. left.
  - intros filestring destination sched c Hrun Hset.
    apply GetFile_run_cases in Hrun as [(Hdead & _)|(_ & [p Hp] & Hreach)].
    { apply settled_alive in Hset. congruence. }
    pose proof (settled_hosts _ _ _ _ c i h0 Hreach Hset Hi) as Hh.
    exists p, (apply_actions (GetFile_work E filestring destination i h0) h0).
    split_and!; [done..|].
    unfold GetFile_work. rewrite Hp.
    pose proof (getFileTask_records E p filestring destination i h0) as Hrec.
    cbv zeta in Hrec.
    destruct (kitutils_RunCMD E i p (scp_argv h0 filestring destination))
      as [cmdout [err|]]; destruct Hrec as [-> _]; done.
Qed.

Lemma lastError_after_dispatch_witness :
  let E := mkEnv (fun _ => Some "/usr/bin/ssh")
                 (fun i _ _ => match i with
                               | O => (list_byte_of_string "Permission denied",
                                       Some "exit status 255")
                               | _ => ([], None)
                               end)
                 (fun _ _ _ => ("", None)) in
  let ds := mkDistShell
              [mkHost "h1" [] "df" [] None;
               mkHost "h2" [] "df" [] (Some "exit status 1")] true 50 in
  let sched := [Controller; Controller;
                Worker 0; Worker 0; Worker 0; Worker 0;
                Worker 1; Worker 1; Worker 1;
                Controller; Controller; Controller; Controller] in
  exists c,
    Execute_run E ds sched = Some c /\ settled c
    /\ (exists p h, LookPath E "ssh" = Some p /\ hosts c !! 0%nat = Some h
                    /\ CmdError h = Some "exit status 255")
    /\ (exists p h, LookPath E "ssh" = Some p /\ hosts c !! 1%nat = Some h
                    /\ CmdError h = Some "exit status 1").
Proof.
  intros E ds sched.
  assert (Hrun : exists c, Execute_run E ds sched = Some c /\ settled c).
  { eexists. split; [vm_compute; reflexivity|].
    split; [eexists; reflexivity|repeat constructor]. }
  destruct Hrun as (c & Hrun & Hset). exists c. split_and!; [done..| |].
  - apply (proj1 (lastError_after_dispatch E ds 0
                    (mkHost "h1" [] "df" [] None) eq_refl) sched c Hrun Hset).
    discriminate.
  - apply (proj1 (lastError_after_dispatch E ds 1
                    (mkHost "h2" [] "df" [] (Some "exit status 1")) eq_refl)
             sched c Hrun Hset).
    discriminate.
Defined.

(** How a record comes to carry an error: [ssh] fails for [h1]. *)
Example earlier_dispatch_fails :
  let E := mkEnv (fun _ => Some "/usr/bin/ssh")
                 (fun _ _ _ => ([], Some "exit status 1"))
                 (fun _ _ _ => ("", None)) in
  hosts <$> Execute_run E (AddCommand (New ["h1"]) "h1" "df" []).1
              [Controller; Worker 0; Worker 0; Controller; Worker 0; Worker 0;
               Controller; Controller]
  = Some [mkHost "h1" [] "df" [] (Some "exit status 1")].
Proof. reflexivity. Qed.

(** C2 as stated fails: on the session the earlier dispatch left, [ssh] now
    succeeds for [h1], the dispatch settles, and the record still carries
    the earlier error. *)
Lemma success_keeps_earlier_error : ~ lastError_reflects_last_run.
Proof.
  intros Hclaim.
  pose (E := mkEnv (fun _ => Some "/usr/bin/ssh")
                   (fun _ _ _ => ([], None)) (fun _ _ _ => ("", None))).
  pose (h0 := mkHost "h1" [] "df" [] (Some "exit status 1")).
  pose (ds := mkDistShell [h0] true 50).
  pose (sched := [Controller; Worker 0; Worker 0; Worker 0;
                  Controller; Controller; Controller]).
  assert (Hrun : exists c, Execute_run E ds sched = Some c /\ settled c
                           /\ hosts c !! 0%nat = Some h0).
  { eexists. split_and!; [vm_compute; reflexivity| |reflexivity].
    split; [eexists; reflexivity|repeat constructor]. }
  destruct Hrun as (c & Hrun & Hset & Hh).
  specialize (Hclaim E ds sched c 0%nat h0 h0 "/usr/bin/ssh" Hrun Hset
                eq_refl Hh).
  simpl in Hclaim. discriminate Hclaim; done.
Qed.

(** ** Assignment of commands *)



(** ** A host without a command, dispatched twice *)

(** C6 fails on the code, by the missing [return] of [runCMD].  The host
    [h1] has no command.  In the first dispatch [ssh] fails: the record
    ends with the error of [ssh] and with its output.  In the second
    dispatch [ssh] succeeds: the record ends with the error
    [no available command to execute] and with the new output.  The two
    errors differ and the captured output did not stay empty. *)
Theorem no_command_twice_differs :
  let E1 := mkEnv (fun _ => Some "/usr/bin/ssh")
                  (fun _ _ _ => (list_byte_of_string "Permission denied",
                                 Some "exit status 255"))
                  (fun _ _ _ => ("", None)) in
  let E2 := mkEnv (fun _ => Some "/usr/bin/ssh")
                  (fun _ _ _ => (list_byte_of_string "Last login", None))
                  (fun _ _ _ => ("", None)) in
  let ds := New ["h1"] in
  let s1 := [Controller; Worker 0; Worker 0; Worker 0; Worker 0; Worker 0;
             Worker 0; Controller; Controller; Controller] in
  let s2 := [Controller; Worker 0; Worker 0; Worker 0; Worker 0; Worker 0;
             Controller; Controller; Controller] in
  exists c1 c2,
    Execute_run E1 ds s1 = Some c1 /\ settled c1
    /\ Execute_run E2 (set_HOSTS (hosts c1) ds) s2 = Some c2 /\ settled c2
    /\ hosts c1 = [mkHost "h1" (list_byte_of_string "Permission denied") ""
                     [] (Some "exit status 255")]
    /\ hosts c2 = [mkHost "h1" (list_byte_of_string "Last login") ""
                     [] (Some "no available command to execute")].
Proof.
  intros E1 E2 ds s1 s2. eexists. eexists. split_and!.
  - vm_compute. reflexivity.
  - split; [eexists; reflexivity|repeat constructor].
  - vm_compute. reflexivity.
  - split; [eexists; reflexivity|repeat constructor].
  - reflexivity.
  - reflexivity.
Qed.

(** ** The steps, case by case *)

Section Steps.

Variable mon : bool.
Variable mb : Z.
Variable work : nat -> Host -> list action.

Lemma step_controller_inv c c' :
  step_controller mon mb work c = Some c' ->
  (exists i rc tot h,
      pc c = Launch i rc tot /\ hosts c !! i = Some h
      /\ c' = mkConfig (hosts c) (chan c) (pool c ++ [work i h])
                (if (rc + 1 >=? mb) || (tot + 1 >=? Z.of_nat (length (hosts c)))
                 then Drain i 0 (rc + 1) (tot + 1)
                 else Launch (S i) (rc + 1) (tot + 1))
                (console c) (log c ++ [Launched i]))
  \/ (exists i rc tot,
      pc c = Launch i rc tot /\ hosts c !! i = None
      /\ c' = mkConfig (hosts c) (chan c) (pool c)
                (Returned (report (hosts c))) (console c) (log c))
  \/ (exists i k rc tot s rest,
      pc c = Drain i k rc tot /\ k < rc /\ chan c = s :: rest
      /\ c' = mkConfig (hosts c) rest (pool c) (Drain i (k + 1) rc tot)
                (if mon then console c ++ [Println s] else console c)
                (log c ++ [Received s]))
  \/ (exists i k rc tot,
      pc c = Drain i k rc tot /\ rc <= k
      /\ c' = mkConfig (hosts c) (chan c) (pool c) (Launch (S i) 0 tot)
                (console c) (log c)).
Proof.
  unfold step_controller. intros H.
  destruct (pc c) as [i rc tot|i k rc tot| | |] eqn:Epc; try done.
  - destruct (hosts c !! i) as [h|] eqn:Hi.
    + left. exists i, rc, tot, h. by injection H as <-.
    + right. left. exists i, rc, tot. by injection H as <-.
  - destruct (k <? rc) eqn:Hk.
    + destruct (chan c) as [|s rest] eqn:Hc; [done|].
      right. right. left. exists i, k, rc, tot, s, rest.
      injection H as <-. split_and!; [done|lia|done..].
    + right. right. right. exists i, k, rc, tot.
      injection H as <-. split_and!; [done|lia|done].
Qed.

Lemma step_worker_inv j c c' :
  step_worker mon mb j c = Some c' ->
  alive c = true
  /\ exists a rest,
      pool c !! j = Some (a :: rest)
      /\ match a with
         | Send s =>
             (0 < mb /\ Z.of_nat (length (chan c)) < mb
              /\ c' = mkConfig (hosts c) (chan c ++ [s]) (<[j := rest]> (pool c))
                        (pc c) (console c) (log c))
             \/ (mb <= 0 /\ exists i k rc tot,
                   pc c = Drain i k rc tot /\ k < rc
                   /\ c' = mkConfig (hosts c) (chan c) (<[j := rest]> (pool c))
                             (Drain i (k + 1) rc tot)
                             (if mon then console c ++ [Println s]
                              else console c)
                             (log c ++ [Received s]))
         | SetStdout _ | SetCmdError _ =>
             c' = mkConfig (alter (apply_action a) j (hosts c)) (chan c)
                    (<[j := rest]> (pool c)) (pc c) (console c) (log c)
         | Exec _ _ =>
             c' = mkConfig (hosts c) (chan c) (<[j := rest]> (pool c))
                    (pc c) (console c) (log c)
         | Printf s =>
             c' = mkConfig (hosts c) (chan c) (<[j := rest]> (pool c))
                    (pc c) (console c ++ [s]) (log c)
         | Exit =>
             c' = mkConfig (hosts c) (chan c) (<[j := rest]> (pool c))
                    Exited (console c) (log c)
         end.
Proof.
  unfold step_worker. destruct (alive c) eqn:Halive; [|done].
  destruct (pool c !! j) as [[|a rest]|] eqn:Hpool; try done.
  intros H. split; [done|]. exists a, rest. split; [done|].
  destruct a as [s|out|e|p argv|s|]; simpl in H.
  - unfold step_send in H. destruct (0 <? mb) eqn:Hmb.
    + destruct (Z.of_nat (length (chan c)) <? mb) eqn:Hroom; [|done].
      left. injection H as <-. split_and!; [lia|lia|done].
    + destruct (pc c) as [|i k rc tot| | |] eqn:Epc; try done.
      destruct (k <? rc) eqn:Hk; [|done].
      right. split; [lia|]. exists i, k, rc, tot.
      injection H as <-. split_and!; [done|lia|done].
  - by injection H as <-.
  - by injection H as <-.
  - injection H as <-. by destruct c.
  - by injection H as <-.
  - by injection H as <-.
Qed.

End Steps.

(** ** Counting the work items in flight *)

Lemma sends_app l1 l2 : sends (l1 ++ l2) = sends l1 ++ sends l2.
Proof.
  induction l1 as [|a l1 IH]; [done|]. destruct a; simpl; by rewrite ?IH.
Qed.

Lemma filter_length_insert {A} (P : A -> Prop) `{!forall x, Decision (P x)}
    (l : list A) (j : nat) old new :
  l !! j = Some old ->
  (length (filter P (<[j := new]> l)) + (if decide (P old) then 1 else 0)
   = length (filter P l) + (if decide (P new) then 1 else 0))%nat.
Proof.
  intros Hj.
  rewrite insert_take_drop by (by eapply lookup_lt_Some).
  rewrite <- (take_drop_middle l j old Hj) at 3.
  rewrite !filter_app, !filter_cons, !length_app.
  destruct (decide (P old)), (decide (P new)); simpl; lia.
Qed.

Lemma launched_app l1 l2 : launched (l1 ++ l2) = launched l1 ++ launched l2.
Proof.
  induction l1 as [|e l1 IH]; [done|]. destruct e; simpl; by rewrite ?IH.
Qed.

Lemma launched_Launched (ls : list nat) : launched (Launched <$> ls) = ls.
Proof. induction ls as [|i ls IH]; [done|]. simpl. by f_equal. Qed.

Lemma launched_Received (rs : list string) : launched (Received <$> rs) = [].
Proof. induction rs as [|s rs IH]; [done|]. done. Qed.

Lemma in_flight_launch p acts :
  length (sends acts) = 1%nat ->
  length (filter pending (p ++ [acts])) = S (length (filter pending p)).
Proof.
  intros Hone. rewrite filter_app, length_app.
  rewrite filter_cons_True; [simpl; lia|].
  unfold pending. by destruct (sends acts).
Qed.

Lemma fmap_seq_snoc {A} (f : nat -> A) (i b : nat) :
  (b <= i)%nat ->
  (f <$> seq (i - b) b) ++ [f i] = f <$> seq (S i - S b) (S b).
Proof.
  intros Hb. rewrite seq_S, fmap_app. simpl.
  by replace (i - b + b)%nat with i by lia.
Qed.

Section Batches.

Variable mon : bool.
Variable mb : Z.
Variable work : nat -> Host -> list action.
Variable hs0 : list Host.
Hypothesis Hone : one_message work hs0.

Lemma batch_inv_start : batch_inv mb (length hs0) (start hs0).
Proof.
  unfold batch_inv, start, in_flight. simpl. split_and!; [done|lia|done| |].
  - exists [], [], []. split_and!; [done|constructor|done|simpl; lia].
  - exists 0%nat, []. split_and!; auto; constructor.
Qed.

Lemma batch_inv_controller c c' :
  owned work hs0 c ->
  batch_inv mb (length hs0) c ->
  step_controller mon mb work c = Some c' ->
  batch_inv mb (length hs0) c'.
Proof.
  intros (Hlen & Hpl & Hrec & Hopc) (Hle & Hbound & Hlaunched & Hbatched & Hpc)
    Hstep.
  apply step_controller_inv in Hstep
    as [(i & rc & tot & h & Epc & Hi & ->)
       |[(i & rc & tot & Epc & Hi & ->)
        |[(i & k & rc & tot & s & rest & Epc & Hk & Hchan & ->)
         |(i & k & rc & tot & Epc & Hk & ->)]]];
    rewrite Epc in Hpc, Hopc; unfold batch_inv, in_flight in *; simpl.
  - (* a launch *)
    destruct Hpc as (b & done & -> & -> & Hbi & Hb & Hsum & Hdone & Hlog).
    assert (Hlt : (i < length hs0)%nat).
    { rewrite <- Hlen. by eapply lookup_lt_Some. }
    destruct (lookup_lt_is_Some_2 hs0 i Hlt) as [h0 Hh0].
    assert (h = h0) as ->.
    { specialize (Hrec i h0 Hh0).
      rewrite lookup_ge_None_2 in Hrec by lia. congruence. }
    pose proof (Hone i h0 Hh0) as Hmsg.
    rewrite (in_flight_launch _ _ Hmsg).
    assert (Hwidth : Z.of_nat (S b) <= Z.max 1 mb) by lia.
    assert (Hlog' : log c ++ [Launched i]
                    = done ++ (Launched <$> seq (S i - S b) (S b))).
    { rewrite Hlog, <- app_assoc. f_equal. by apply fmap_seq_snoc. }
    split_and!.
    + apply Forall_app. split; [done|]. constructor; [lia|constructor].
    + lia.
    + rewrite launched_app, Hlaunched, length_app. simpl.
      rewrite Hopc. replace (i + 1)%nat with (S i) by lia.
      by rewrite seq_S.
    + exists done, (seq (S i - S b) (S b)), [].
      rewrite Hlog'. simpl. rewrite app_nil_r, length_seq.
      split_and!; [done|done|lia|lia].
    + destruct (_ || _) eqn:Hcond.
      * exists (S b), done, [].
        split_and!; try done; try (simpl; lia).
        by rewrite Hlog', fmap_nil, app_nil_r.
      * apply orb_false_elim in Hcond as [Hc1 Hc2].
        exists (S b), done.
        split_and!; try done; try lia.
  - (* the return *)
    destruct Hpc as (b & done & -> & -> & Hbi & Hb & Hsum & Hdone & Hlog).
    apply lookup_ge_None_1 in Hi.
    assert (b = 0%nat) as -> by lia.
    split_and!; [done|done|done|done| | | |].
    + destruct (chan c); [done|simpl in Hsum; lia].
    + lia.
    + rewrite Hlog. simpl. by rewrite app_nil_r.
    + lia.
  - (* a receive *)
    destruct Hpc as (b & done & rs & -> & -> & Hbi & Hw & -> & Hsum & Hdone & Hlog).
    rewrite Hchan in Hsum. simpl in Hsum.
    assert (Hlog' : log c ++ [Received s]
                    = done ++ (Launched <$> seq (S i - b) b)
                        ++ (Received <$> (rs ++ [s]))).
    { rewrite Hlog, fmap_app, <- !app_assoc. done. }
    split_and!; [done|done| | |].
    + by rewrite launched_app, app_nil_r.
    + exists done, (seq (S i - b) b), (rs ++ [s]).
      rewrite length_app, length_seq. simpl.
      split_and!; [done|done|lia|lia].
    + exists b, done, (rs ++ [s]). rewrite length_app. simpl.
      split_and!; try done; lia.
  - (* the end of a drain *)
    destruct Hpc as (b & done & rs & -> & -> & Hbi & Hw & -> & Hsum & Hdone & Hlog).
    assert (length rs = b) as Hrs by lia.
    split_and!; [done|done|done|done|].
    exists 0%nat, (done ++ (Launched <$> seq (S i - b) b) ++ (Received <$> rs)).
    split_and!; try done; try lia; try (by left).
    + constructor; [done|rewrite length_seq; lia|by rewrite length_seq].
    + simpl. by rewrite app_nil_r.
Qed.

Lemma in_flight_step (p : list (list action)) (j : nat) a rest :
  p !! j = Some (a :: rest) ->
  (length (sends (a :: rest)) <= 1)%nat ->
  (length (sends rest) <= 1)%nat
  /\ (length (filter pending (<[j := rest]> p)) + (if is_send a then 1 else 0)
      = length (filter pending p))%nat.
Proof.
  intros Hj Hle.
  pose proof (filter_length_insert pending p j (a :: rest) rest Hj) as Hf.
  destruct a as [s|out|e|q argv|s|]; simpl in Hle |- *;
    try (change (pending (_ :: rest)) with (pending rest) in Hf;
         split; [done|]; destruct (decide (pending rest)); lia).
  assert (Hnil : sends rest = []).
  { destruct (sends rest); [done|simpl in Hle; lia]. }
  rewrite Hnil. split; [simpl; lia|].
  rewrite decide_True in Hf by done.
  rewrite decide_False in Hf by (unfold pending; rewrite Hnil; auto).
  lia.
Qed.

Lemma batch_inv_worker j c c' :
  batch_inv mb (length hs0) c ->
  step_worker mon mb j c = Some c' ->
  batch_inv mb (length hs0) c'.
Proof.
  intros (Hle & Hbound & Hlaunched & Hbatched & Hpc) Hstep.
  apply step_worker_inv in Hstep as (Halive & a & rest & Hj & Hcase).
  assert (Hlej : (length (sends (a :: rest)) <= 1)%nat).
  { by apply (Forall_lookup_1 _ _ _ _ Hle Hj). }
  destruct (in_flight_step (pool c) j a rest Hj Hlej) as [Hrest Hfl].
  assert (Hle' : Forall (fun acts => (length (sends acts) <= 1)%nat)
                   (<[j := rest]> (pool c))).
  { by apply Forall_insert. }
  unfold batch_inv, in_flight in *.
  destruct a as [s|out|e|q argv|s|]; simpl in Hfl.
  - (* a send *)
    destruct Hcase as [(Hmb & Hroom & ->)
                      |(Hmb & i & k & rc & tot & Epc & Hk & ->)]; simpl.
    + rewrite length_insert, length_app. simpl.
      split_and!; [done|lia|done|done|].
      destruct (pc c) as [i rc tot|i k rc tot|r| |] eqn:Epc.
      * destruct Hpc as (b & done & ? & ? & ? & ? & Hsum & ? & ?).
        exists b, done. split_and!; try done; lia.
      * destruct Hpc as (b & done & rs & ? & ? & ? & ? & ? & Hsum & ? & ?).
        exists b, done, rs. split_and!; try done; lia.
      * destruct Hpc as (_ & Hzero & _). lia.
      * done.
      * done.
    + rewrite Epc in Hpc.
      destruct Hpc as (b & done & rs & -> & -> & Hbi & Hw & -> & Hsum & Hdone & Hlog).
      assert (Hlog' : log c ++ [Received s]
                      = done ++ (Launched <$> seq (S i - b) b)
                          ++ (Received <$> (rs ++ [s]))).
      { rewrite Hlog, fmap_app, <- !app_assoc. done. }
      rewrite length_insert.
      split_and!; [done|lia| | |].
      * by rewrite launched_app, app_nil_r.
      * exists done, (seq (S i - b) b), (rs ++ [s]).
        rewrite length_app, length_seq. simpl.
        split_and!; [done|done|lia|lia].
      * exists b, done, (rs ++ [s]). rewrite length_app. simpl.
        split_and!; try done; lia.
  - subst c'. simpl. rewrite length_insert.
    replace (length (filter pending (<[j:=rest]> (pool c))))
      with (length (filter pending (pool c))) by lia.
    by split_and!.
  - subst c'. simpl. rewrite length_insert.
    replace (length (filter pending (<[j:=rest]> (pool c))))
      with (length (filter pending (pool c))) by lia.
    by split_and!.
  - subst c'. simpl. rewrite length_insert.
    replace (length (filter pending (<[j:=rest]> (pool c))))
      with (length (filter pending (pool c))) by lia.
    by split_and!.
  - subst c'. simpl. rewrite length_insert.
    replace (length (filter pending (<[j:=rest]> (pool c))))
      with (length (filter pending (pool c))) by lia.
    by split_and!.
  - subst c'. simpl. rewrite length_insert.
    replace (length (filter pending (<[j:=rest]> (pool c))))
      with (length (filter pending (pool c))) by lia.
    by split_and!.
Qed.

Lemma batch_inv_reachable c :
  reachable_from mon mb work (start hs0) c ->
  batch_inv mb (length hs0) c.
Proof.
  apply reachable_invariant; [apply batch_inv_start|].
  intros c1 [|j] c2 Hreach Hinv Hstep; simpl in Hstep.
  - eapply batch_inv_controller; [|done..].
    by eapply owned_reachable.
  - by eapply batch_inv_worker.
Qed.

End Batches.

(** ** Every dispatch can settle *)




Section Progress.

Variable mon : bool.
Variable mb : Z.
Variable work : nat -> Host -> list action.
Variable hs0 : list Host.
Hypothesis Hone : one_message work hs0.
Hypothesis Hno_exit : no_exit work hs0.



End Progress.

Section Termination.

Variable mon : bool.
Variable mb : Z.
Variable work : nat -> Host -> list action.
Variable hs0 : list Host.




End Termination.

Section Settling.

Variable mon : bool.
Variable mb : Z.
Variable work : nat -> Host -> list action.
Variable hs0 : list Host.
Hypothesis Hone : one_message work hs0.
Hypothesis Hno_exit : no_exit work hs0.


End Settling.

(** ** When do the work items emit one message *)

Lemma GetFile_work_one_message E filestring destination hs SCP :
  LookPath E "scp" = Some SCP ->
  one_message (GetFile_work E filestring destination) hs
  /\ no_exit (GetFile_work E filestring destination) hs.
Proof.
  intros Hscp. unfold GetFile_work, one_message, no_exit. rewrite Hscp.
  split; intros i h _; unfold getFileTask;
    destruct (kitutils_RunCMD E i SCP (scp_argv h filestring destination))
      as [cmdout [cmderr|]]; simpl; try done.
  - intros Hin. repeat (apply elem_of_cons in Hin as [Hin|Hin]; [done|]).
    by apply elem_of_nil in Hin.
  - intros Hin. repeat (apply elem_of_cons in Hin as [Hin|Hin]; [done|]).
    by apply elem_of_nil in Hin.
Qed.


(** A work item that has its external program yet to run has its message
    yet to send: it counts as in flight.  This is so for [runCMD] on a host
    with a command and for the work item of [GetFile]. *)
Lemma exec_first_in_flight p argv tl done rest :
  Exec p argv :: tl = done ++ rest ->
  Forall (fun a => match a with Exec _ _ => False | _ => True end) tl ->
  sends tl <> [] ->
  to_run rest -> pending rest.
Proof.
  intros Hsplit Htl Hsends (q & av & Hin). destruct done as [|a done].
  - simpl in Hsplit. by subst rest.
  - injection Hsplit as _ ->. exfalso.
    assert (Hin' : Exec q av ∈ done ++ rest) by (apply elem_of_app; by right).
    by apply (proj1 (Forall_forall _ _) Htl) in Hin'.
Qed.

Lemma runCMD_to_run_in_flight E (i : nat) h SSH done rest :
  LookPath E "ssh" = Some SSH -> cmd h <> "" ->
  runCMD E i h = done ++ rest ->
  to_run rest -> pending rest.
Proof.
  intros Hssh Hcmd. rewrite (runCMD_with_command E i h SSH Hcmd Hssh).
  intros Hsplit. eapply exec_first_in_flight; [exact Hsplit| |];
    destruct (CombinedOutput E i SSH (ssh_argv h)) as [out [err|]];
    try done; repeat constructor.
Qed.

Lemma getFileTask_to_run_in_flight E SCP filestring destination (i : nat) h
    done rest :
  getFileTask E SCP filestring destination i h = done ++ rest ->
  to_run rest -> pending rest.
Proof.
  unfold getFileTask. intros Hsplit.
  eapply exec_first_in_flight; [exact Hsplit| |];
    destruct (kitutils_RunCMD E i SCP (scp_argv h filestring destination))
      as [cmdout [cmderr|]]; try done; repeat constructor.
Qed.

(** ** Batches *)



(** ** A single batch *)

Lemma received_app l1 l2 : received (l1 ++ l2) = received l1 ++ received l2.
Proof.
  induction l1 as [|e l1 IH]; [done|]. destruct e; simpl; by rewrite ?IH.
Qed.



Section SingleBatch.

Variable mon : bool.
Variable mb : Z.
Variable work : nat -> Host -> list action.
Variable N : nat.
Hypothesis Hwide : Z.of_nat N <= mb.




End SingleBatch.

(** ** Conservation of messages *)

Section Conservation.

Variable mon : bool.
Variable mb : Z.
Variable work : nat -> Host -> list action.



(** The buffer never holds more than its capacity. *)
Lemma chan_bound hs c :
  reachable_from mon mb work (start hs) c ->
  Z.of_nat (length (chan c)) <= Z.max 0 mb.
Proof.
  revert c.
  apply (reachable_invariant mon mb work
           (fun c => Z.of_nat (length (chan c)) <= Z.max 0 mb)).
  - simpl. lia.
  - intros c1 t c2 _ Hinv Hstep. destruct t as [|j]; simpl in Hstep.
    + apply step_controller_inv in Hstep
        as [(i & rc & tot & h & Epc & Hi & ->)
           |[(i & rc & tot & Epc & Hi & ->)
            |[(i & k & rc & tot & s & rest & Epc & Hk & Hchan & ->)
             |(i & k & rc & tot & Epc & Hk & ->)]]]; simpl; try done.
      rewrite Hchan in Hinv. simpl in Hinv. lia.
    + apply step_worker_inv in Hstep as (_ & a & rest & Hj & Hcase).
      destruct a as [s|out|e|q argv|s|]; try (by subst c2).
      destruct Hcase as [(? & ? & ->)|(_ & i & k & rc & tot & _ & _ & ->)];
        simpl; [rewrite length_app; simpl; lia|done].
Qed.

(** Quiet work items stay quiet. *)
Lemma pool_quiet hs c :
  (forall (i : nat) h, Forall quiet (work i h)) ->
  reachable_from mon mb work (start hs) c ->
  Forall (Forall quiet) (pool c).
Proof.
  intros Hq. revert c.
  apply (reachable_invariant mon mb work
           (fun c => Forall (Forall quiet) (pool c))).
  - constructor.
  - intros c1 t c2 _ Hinv Hstep. destruct t as [|j]; simpl in Hstep.
    + apply step_controller_inv in Hstep
        as [(i & rc & tot & h & Epc & Hi & ->)
           |[(i & rc & tot & Epc & Hi & ->)
            |[(i & k & rc & tot & s & rest & Epc & Hk & Hchan & ->)
             |(i & k & rc & tot & Epc & Hk & ->)]]]; simpl; try done.
      apply Forall_app. split; [done|]. constructor; [apply Hq|constructor].
    + apply step_worker_inv in Hstep as (_ & a & rest & Hj & Hcase).
      assert (Hrest : Forall (Forall quiet) (<[j := rest]> (pool c1))).
      { apply Forall_insert; [done|].
        pose proof (Forall_lookup_1 _ _ _ _ Hinv Hj) as Har.
        by apply Forall_cons in Har as [_ ?]. }
      destruct a as [s|out|e|q argv|s|]; try (by subst c2).
      by destruct Hcase as [(? & ? & ->)|(_ & i & k & rc & tot & _ & _ & ->)].
Qed.

End Conservation.

(** ** The width of the channel *)


Section Width.

Variable mon : bool.
Variable work : nat -> Host -> list action.
Variable N : nat.





End Width.

(** ** Quiet steps *)



Section Quiet.

Variable mon : bool.
Variable mb : Z.
Variable work : nat -> Host -> list action.
Hypothesis Hbuf : 0 < mb.




End Quiet.

(** ** The narrow dispatch follows the wide one *)

Lemma same_domain_length {A B} (l1 : list A) (l2 : list B) :
  (forall j : nat, is_Some (l1 !! j) <-> is_Some (l2 !! j)) ->
  length l1 = length l2.
Proof.
  intros Hdom.
  destruct (decide (length l1 < length l2)%nat) as [Hlt|Hge].
  - apply lookup_lt_is_Some_2, Hdom, lookup_lt_is_Some_1 in Hlt. lia.
  - destruct (decide (length l2 < length l1)%nat) as [Hlt|Hge']; [|lia].
    apply lookup_lt_is_Some_2, Hdom, lookup_lt_is_Some_1 in Hlt. lia.
Qed.









Section Simulation.

Variable mon : bool.
Variable mbig : Z.
Variable work : nat -> Host -> list action.
Variable N : nat.
Hypothesis Hwide : Z.of_nat N <= mbig.




End Simulation.

Section Narrow.

Variable mon : bool.
Variable mbig : Z.
Variable work : nat -> Host -> list action.
Variable hs : list Host.
Hypothesis Hwide : Z.of_nat (length hs) <= mbig.
Hypothesis Htwo : sends_at_most 2 work.
Hypothesis Hquiet : forall (i : nat) h, Forall quiet (work i h).



End Narrow.

Lemma runCMD_two_sends E SSH :
  LookPath E "ssh" = Some SSH ->
  sends_at_most 2 (runCMD E) /\ forall (i : nat) h, Forall quiet (runCMD E i h).
Proof.
  intros Hssh. split; intros i h.
  - destruct (decide (cmd h = "")) as [Hc|Hc].
    + rewrite (runCMD_without_command E i h SSH Hc Hssh).
      by destruct (CombinedOutput E i SSH (ssh_argv h)) as [out [err|]].
    + rewrite (runCMD_with_command E i h SSH Hc Hssh).
      destruct (CombinedOutput E i SSH (ssh_argv h)) as [out [err|]];
        simpl; lia.
  - destruct (decide (cmd h = "")) as [Hc|Hc].
    + rewrite (runCMD_without_command E i h SSH Hc Hssh).
      destruct (CombinedOutput E i SSH (ssh_argv h)) as [out [err|]];
        repeat constructor.
    + rewrite (runCMD_with_command E i h SSH Hc Hssh).
      destruct (CombinedOutput E i SSH (ssh_argv h)) as [out [err|]];
        repeat constructor.
Qed.




(** ** The width of the batch *)








(** * More of the package *)

(** ** Construction *)

Lemma buildHost_lookup hList (i : nat) :
  buildHost hList !! i = zeroHost <$> hList !! i.
Proof.
  revert i. induction hList as [|n l IH]; intros [|i]; simpl; auto.
Qed.

(** X1.  [New] builds one record for each name, in the order given,
    duplicates and empty names included: the names of the records are the
    list it was given, and every record has no command, no arguments, no
    output and no error.  Monitoring is on and the batch size is 50. *)
Theorem New_builds_fresh_records hList :
  Name <$> HOSTS (New hList) = hList
  /\ length (HOSTS (New hList)) = length hList
  /\ (forall x, x ∈ HOSTS (New hList) ->
        cmd x = "" /\ args x = [] /\ Stdout x = [] /\ CmdError x = None)
  /\ monitor (New hList) = true /\ maxBatch (New hList) = 50
  /\ report (HOSTS (New hList)) = None.
Proof.
  assert (Hfresh : forall x, x ∈ buildHost hList ->
             cmd x = "" /\ args x = [] /\ Stdout x = [] /\ CmdError x = None).
  { intros x Hx. apply list_elem_of_lookup in Hx as [i Hi].
    rewrite buildHost_lookup in Hi.
    destruct (hList !! i); [|done]. by injection Hi as <-. }
  simpl. split_and!; try done.
  - apply list_eq. intros i. rewrite list_lookup_fmap, buildHost_lookup.
    by destruct (hList !! i).
  - apply same_domain_length. intros i. rewrite buildHost_lookup.
    by rewrite fmap_is_Some.
  - apply report_None, failed_names_nil. intros x Hx. by apply Hfresh.
Qed.

(** ** Assignments *)

Lemma AddCommand_loop_assign hs h command cargs (i : nat) :
  (AddCommand_loop hs h command cargs).1 !! i
  = (fun x => if decide (Name x = h /\ h ∉ Name <$> take i hs)
              then assign command cargs x else x) <$> hs !! i.
Proof.
  revert i. induction hs as [|y hs IH]; intros i; [done|]. simpl.
  destruct (String.eqb_spec (Name y) h) as [Hy|Hy].
  - destruct i as [|i]; simpl.
    + rewrite decide_True; [done|]. split; [done|]. by intros ?%elem_of_nil.
    + destruct (hs !! i) as [x|]; [|done]. simpl.
      rewrite decide_False; [done|]. intros [_ Hnot]. apply Hnot.
      rewrite Hy. left.
  - specialize (IH). destruct (AddCommand_loop hs h command cargs) as [r f].
    destruct i as [|i]; simpl in *.
    + rewrite decide_False; [done|]. by intros [? _].
    + rewrite IH. destruct (hs !! i) as [x|]; [|done]. simpl. f_equal.
      destruct (decide (Name x = h /\ h ∉ Name <$> take i hs)) as [[Hx Hn]|Hn].
      * rewrite decide_True; [done|]. split; [done|].
        intros [?|?]%elem_of_cons; [congruence|done].
      * rewrite decide_False; [done|]. intros [Hx Hn']. apply Hn.
        split; [done|]. intros Hin. apply Hn'. by right.
Qed.

Lemma AddCommand_loop_found_iff hs h command cargs :
  (AddCommand_loop hs h command cargs).2 = true <-> h ∈ Name <$> hs.
Proof.
  induction hs as [|y hs IH]; simpl.
  - split; [done|]. by intros ?%elem_of_nil.
  - destruct (String.eqb_spec (Name y) h) as [Hy|Hy]; simpl.
    + split; [|done]. intros _. rewrite Hy. left.
    + destruct (AddCommand_loop hs h command cargs) as [r f]. simpl in *.
      rewrite IH. split; [by right|].
      intros [?|?]%elem_of_cons; [congruence|done].
Qed.

(** X2.  [AddCommand] returns [true] exactly when some record carries the
    identity.  In either case it keeps the number of records and, of every
    record, the name, the captured output and the error: an assignment
    never clears what an earlier dispatch recorded, and the failure report
    of the session is the same before and after. *)
Theorem AddCommand_found_iff_and_keeps ds h command cargs :
  ((AddCommand ds h command cargs).2 = true <-> h ∈ Name <$> HOSTS ds)
  /\ length (HOSTS (AddCommand ds h command cargs).1) = length (HOSTS ds)
  /\ (fun x => (Name x, Stdout x, CmdError x))
       <$> HOSTS (AddCommand ds h command cargs).1
     = (fun x => (Name x, Stdout x, CmdError x)) <$> HOSTS ds
  /\ monitor (AddCommand ds h command cargs).1 = monitor ds
  /\ maxBatch (AddCommand ds h command cargs).1 = maxBatch ds
  /\ report (HOSTS (AddCommand ds h command cargs).1) = report (HOSTS ds).
Proof.
  pose proof (AddCommand_loop_found_iff (HOSTS ds) h command cargs) as Hiff.
  pose proof (AddCommand_loop_keeps (HOSTS ds) h command cargs) as Hkeep.
  unfold AddCommand.
  destruct (AddCommand_loop (HOSTS ds) h command cargs) as [hs found].
  simpl in *. split_and!; try done.
  - by rewrite <- (length_fmap (fun x => (Name x, Stdout x, CmdError x))),
      Hkeep, length_fmap.
  - assert (Hfailed : failed_names hs = failed_names (HOSTS ds)).
    { unfold failed_names.
      assert (Hgen : forall l1 l2 : list Host,
                 (fun x => (Name x, Stdout x, CmdError x)) <$> l1
                 = (fun x => (Name x, Stdout x, CmdError x)) <$> l2 ->
                 Name <$> filter (fun x => CmdError x <> None) l1
                 = Name <$> filter (fun x => CmdError x <> None) l2).
      { induction l1 as [|a l1 IH]; intros [|b l2] Heq; try done.
        simpl in Heq. injection Heq as Hn Hs He Hrest.
        rewrite !filter_cons. rewrite He.
        destruct (decide (CmdError b <> None)); simpl;
          [f_equal; [done|]|]; by apply IH. }
      by apply Hgen. }
    unfold report. by rewrite !failedHosts_commas, Hfailed.
Qed.

Lemma AddCommand_lookup ds h command cargs (i : nat) :
  HOSTS (AddCommand ds h command cargs).1 !! i
  = (fun x => if decide (Name x = h /\ h ∉ Name <$> take i (HOSTS ds))
              then assign command cargs x else x) <$> HOSTS ds !! i.
Proof.
  pose proof (AddCommand_loop_assign (HOSTS ds) h command cargs i) as Hl.
  unfold AddCommand.
  by destruct (AddCommand_loop (HOSTS ds) h command cargs) as [hs found].
Qed.

Lemma AddCommand_names ds h command cargs :
  Name <$> HOSTS (AddCommand ds h command cargs).1 = Name <$> HOSTS ds.
Proof.
  apply list_eq. intros i.
  rewrite !list_lookup_fmap, AddCommand_lookup.
  destruct (HOSTS ds !! i) as [x|]; [|done]. simpl.
  by destruct (decide _).
Qed.

Lemma AddCommand_settings ds h command cargs :
  monitor (AddCommand ds h command cargs).1 = monitor ds
  /\ maxBatch (AddCommand ds h command cargs).1 = maxBatch ds.
Proof.
  unfold AddCommand.
  by destruct (AddCommand_loop (HOSTS ds) h command cargs) as [hs found].
Qed.

Lemma DistShell_eq (d1 d2 : DistShell) :
  HOSTS d1 = HOSTS d2 -> monitor d1 = monitor d2 -> maxBatch d1 = maxBatch d2 ->
  d1 = d2.
Proof. destruct d1, d2. simpl. by intros -> -> ->. Qed.

Lemma assign_assign c1 a1 c2 a2 x :
  assign c2 a2 (assign c1 a1 x) = assign c2 a2 x.
Proof. by destruct x. Qed.

Lemma Name_assign c a x : Name (assign c a x) = Name x.
Proof. done. Qed.

(** X3.  Of two assignments to one identity the later one wins: the session
    is the one the later assignment alone gives.  In particular an
    assignment made twice is the assignment made once. *)
Theorem AddCommand_last_assignment_wins ds h c1 a1 c2 a2 :
  (AddCommand (AddCommand ds h c1 a1).1 h c2 a2).1 = (AddCommand ds h c2 a2).1.
Proof.
  apply DistShell_eq.
  - apply list_eq. intros i.
    rewrite !AddCommand_lookup.
    rewrite !fmap_take, AddCommand_names, <- !fmap_take.
    destruct (HOSTS ds !! i) as [x|]; [|done]. simpl. f_equal.
    destruct (decide (Name x = h /\ h ∉ Name <$> take i (HOSTS ds))) as [Hx|Hx].
    + rewrite Name_assign, decide_True by done. apply assign_assign.
    + by rewrite decide_False.
  - by rewrite !(proj1 (AddCommand_settings _ _ _ _)).
  - by rewrite !(proj2 (AddCommand_settings _ _ _ _)).
Qed.

(** X4.  Assignments to different identities do not interfere: made in
    either order they give the same session. *)
Theorem AddCommand_commutes ds h1 c1 a1 h2 c2 a2 :
  h1 <> h2 ->
  (AddCommand (AddCommand ds h1 c1 a1).1 h2 c2 a2).1
  = (AddCommand (AddCommand ds h2 c2 a2).1 h1 c1 a1).1.
Proof.
  intros Hne. apply DistShell_eq.
  - apply list_eq. intros i.
    rewrite !AddCommand_lookup.
    rewrite !fmap_take, !AddCommand_names, <- !fmap_take.
    destruct (HOSTS ds !! i) as [x|]; [|done]. simpl. f_equal.
    destruct (decide (Name x = h1 /\ h1 ∉ Name <$> take i (HOSTS ds)))
      as [[Hx1 Hn1]|Hx1];
      destruct (decide (Name x = h2 /\ h2 ∉ Name <$> take i (HOSTS ds)))
      as [[Hx2 Hn2]|Hx2]; rewrite ?Name_assign;
      repeat case_decide; try done; try congruence; naive_solver.
  - by rewrite !(proj1 (AddCommand_settings _ _ _ _)).
  - by rewrite !(proj2 (AddCommand_settings _ _ _ _)).
Qed.

Lemma AddCommand_commutes_witness :
  "a" <> "b"
  /\ (AddCommand (AddCommand (New ["a"; "b"; "a"]) "a" "ls" ["-l"]).1
        "b" "date" []).1
     = (AddCommand (AddCommand (New ["a"; "b"; "a"]) "b" "date" []).1
        "a" "ls" ["-l"]).1.
Proof. split; [done|]. by apply AddCommand_commutes. Defined.

Lemma assign_each_lookup (l : list Host) d command cargs (i : nat) :
  HOSTS (fold_left (fun d h => (AddCommand d (Name h) command cargs).1) l d) !! i
  = (fun x => if decide (Name x ∈ Name <$> l
                         /\ Name x ∉ Name <$> take i (HOSTS d))
              then assign command cargs x else x) <$> HOSTS d !! i.
Proof.
  revert d. induction l as [|h l IH]; intros d; cbn [fold_left].
  - by destruct (HOSTS d !! i) as [x|].
  - rewrite IH, AddCommand_lookup.
    rewrite !fmap_take, AddCommand_names, <- !fmap_take.
    rewrite <- option_fmap_compose. apply option_fmap_ext. intros x.
    unfold compose.
    repeat case_decide; rewrite ?assign_assign; try done; exfalso;
      rewrite ?Name_assign, ?fmap_cons, ?elem_of_cons in *;
      intuition congruence.
Qed.

Lemma ExecuteAll_assigns_first_lookup ds command cargs (i : nat) :
  HOSTS (ExecuteAll_assign ds command cargs) !! i
  = (fun x => if decide (Name x ∈ Name <$> take i (HOSTS ds))
              then x else assign command cargs x) <$> HOSTS ds !! i.
Proof.
  unfold ExecuteAll_assign. rewrite assign_each_lookup.
  destruct (HOSTS ds !! i) as [x|] eqn:Hi; [|done]. simpl. f_equal.
  assert (Hin : Name x ∈ Name <$> HOSTS ds).
  { apply list_elem_of_fmap. exists x. split; [done|].
    by apply list_elem_of_lookup_2 in Hi. }
  repeat case_decide; try done; tauto.
Qed.

(** X5.  [ExecuteAll] assigns the command to the first record of every
    identity, and to no other record: a record whose identity already
    occurs earlier in the session keeps the command and the arguments it
    had, because each [AddCommand] of the loop stops at the first match.
    Names, captured output and errors are those of the session as it
    was. *)
Theorem ExecuteAll_assigns_first_of_each_identity ds command cargs :
  (forall i : nat,
      HOSTS (ExecuteAll_assign ds command cargs) !! i
      = (fun x => if decide (Name x ∈ Name <$> take i (HOSTS ds))
                  then x else assign command cargs x) <$> HOSTS ds !! i)
  /\ (fun x => (Name x, Stdout x, CmdError x))
       <$> HOSTS (ExecuteAll_assign ds command cargs)
     = (fun x => (Name x, Stdout x, CmdError x)) <$> HOSTS ds.
Proof.
  split; [apply ExecuteAll_assigns_first_lookup|].
  apply list_eq. intros i.
  rewrite !list_lookup_fmap, ExecuteAll_assigns_first_lookup.
  destruct (HOSTS ds !! i) as [x|]; [|done]. simpl.
  by destruct (decide _).
Qed.

Lemma NoDup_names_first (hs : list Host) (i : nat) x :
  NoDup (Name <$> hs) -> hs !! i = Some x -> Name x ∉ Name <$> take i hs.
Proof.
  intros Hnd Hi. rewrite <- (take_drop_middle hs i x Hi) in Hnd.
  rewrite fmap_app in Hnd. apply NoDup_app in Hnd as (_ & Hdisj & _).
  intros Hin. apply (Hdisj _ Hin). simpl. left.
Qed.

Lemma ExecuteAll_assign_distinct ds command cargs :
  NoDup (Name <$> HOSTS ds) ->
  HOSTS (ExecuteAll_assign ds command cargs)
  = assign command cargs <$> HOSTS ds.
Proof.
  intros Hnd. apply list_eq. intros i.
  rewrite ExecuteAll_assigns_first_lookup, list_lookup_fmap.
  destruct (HOSTS ds !! i) as [x|] eqn:Hi; [|done]. simpl. f_equal.
  rewrite decide_False; [done|]. by apply NoDup_names_first.
Qed.


(** X6.  On a session whose identities are pairwise different, [ExecuteAll]
    assigns the command and its arguments to every record. *)
Theorem ExecuteAll_assigns_every_record ds command cargs :
  NoDup (Name <$> HOSTS ds) ->
  HOSTS (ExecuteAll_assign ds command cargs)
  = assign command cargs <$> HOSTS ds.
Proof. apply ExecuteAll_assign_distinct. Qed.

Lemma ExecuteAll_assigns_every_record_witness :
  NoDup (Name <$> HOSTS (New ["a"; "b"; "c"]))
  /\ HOSTS (ExecuteAll_assign (New ["a"; "b"; "c"]) "uptime" ["-p"])
     = assign "uptime" ["-p"] <$> HOSTS (New ["a"; "b"; "c"]).
Proof.
  assert (Hnd : NoDup (Name <$> HOSTS (New ["a"; "b"; "c"]))).
  { by apply (bool_decide_unpack _). }
  split; [exact Hnd|]. by apply ExecuteAll_assigns_every_record.
Defined.

(** ** Printing the captured output *)

Lemma DumpHostStdout_loop_filter hs h :
  DumpHostStdout_loop hs h
  = dump_host_text <$> filter (fun x => Name x = h) hs.
Proof.
  induction hs as [|x hs IH]; [done|]. simpl.
  destruct (String.eqb_spec (Name x) h) as [Hx|Hx].
  - rewrite filter_cons_True by done. by rewrite fmap_cons, IH.
  - by rewrite filter_cons_False.
Qed.

Lemma GetHostStdout_loop_filter hs h x rest :
  filter (fun x => Name x = h) hs = x :: rest ->
  GetHostStdout_loop hs h = Stdout x.
Proof.
  induction hs as [|y hs IH]; [done|]. simpl.
  destruct (String.eqb_spec (Name y) h) as [Hy|Hy].
  - rewrite filter_cons_True by done. by intros [= -> _].
  - by rewrite filter_cons_False.
Qed.

(** X7.  [DumpHostStdout] prints one block for every record that carries
    the identity, in session order: nothing at all for an identity the
    session does not have (no sentinel is printed), and several blocks for
    an identity that occurs several times.  The output shown in the first
    block is what [GetHostStdout] returns for the identity. *)
Theorem DumpHostStdout_prints_every_match ds h :
  DumpHostStdout ds h
  = dump_host_text <$> filter (fun x => Name x = h) (HOSTS ds)
  /\ (DumpHostStdout ds h = [] <-> h ∉ Name <$> HOSTS ds)
  /\ (forall x rest,
        filter (fun x => Name x = h) (HOSTS ds) = x :: rest ->
        DumpHostStdout ds h = dump_host_text x :: (dump_host_text <$> rest)
        /\ GetHostStdout ds h = Stdout x).
Proof.
  unfold DumpHostStdout, GetHostStdout.
  rewrite DumpHostStdout_loop_filter. split_and!; [done| |].
  - split.
    + intros Hnil%fmap_nil_inv [x [Hn Hx]]%list_elem_of_fmap.
      assert (Hin : x ∈ filter (fun x => Name x = h) (HOSTS ds))
        by by apply list_elem_of_filter.
      rewrite Hnil in Hin. by apply elem_of_nil in Hin.
    + intros Hno.
      destruct (filter (fun x => Name x = h) (HOSTS ds)) as [|x l] eqn:Hf;
        [done|].
      exfalso. apply Hno. apply list_elem_of_fmap. exists x.
      assert (Hin : x ∈ filter (fun x => Name x = h) (HOSTS ds))
        by (rewrite Hf; left).
      by apply list_elem_of_filter in Hin as [-> ?].
  - intros x rest Hf. rewrite Hf. split; [done|].
    by apply (GetHostStdout_loop_filter _ _ _ rest).
Qed.

Lemma DumpAllStdout_loop_fmap hs :
  DumpAllStdout_loop hs = dump_all_text <$> hs.
Proof. induction hs as [|x hs IH]; [done|]. simpl. by rewrite IH. Qed.

(** X8.  [DumpAllStdout] prints one block for each record, in session
    order, whether or not anything ran on it.  The blocks show the name and
    the captured output only, so an assignment of a command does not change
    what is printed. *)
Theorem DumpAllStdout_one_block_per_record ds :
  length (DumpAllStdout ds) = length (HOSTS ds)
  /\ (forall (i : nat),
        DumpAllStdout ds !! i = dump_all_text <$> HOSTS ds !! i)
  /\ (forall h command cargs,
        DumpAllStdout (AddCommand ds h command cargs).1 = DumpAllStdout ds)
  /\ (forall command cargs,
        DumpAllStdout (ExecuteAll_assign ds command cargs) = DumpAllStdout ds).
Proof.
  unfold DumpAllStdout. rewrite !DumpAllStdout_loop_fmap.
  assert (Hkeep : forall l1 l2 : list Host,
             (fun x => (Name x, Stdout x, CmdError x)) <$> l1
             = (fun x => (Name x, Stdout x, CmdError x)) <$> l2 ->
             dump_all_text <$> l1 = dump_all_text <$> l2).
  { intros l1 l2 Heq.
    change dump_all_text
      with ((fun t : string * list byte * option error =>
               "Dumping output for host: " +:+ t.1.1 +:+ newline
                 +:+ string_of_list_byte t.1.2)
            ∘ (fun x => (Name x, Stdout x, CmdError x))).
    by rewrite !list_fmap_compose, Heq. }
  split_and!.
  - by rewrite length_fmap.
  - intros i. by rewrite list_lookup_fmap.
  - intros h command cargs. rewrite !DumpAllStdout_loop_fmap.
    apply Hkeep. unfold AddCommand.
    pose proof (AddCommand_loop_keeps (HOSTS ds) h command cargs) as Hk.
    by destruct (AddCommand_loop (HOSTS ds) h command cargs).
  - intros command cargs. rewrite !DumpAllStdout_loop_fmap.
    apply Hkeep. apply list_eq. intros i.
    rewrite !list_lookup_fmap, ExecuteAll_assigns_first_lookup.
    destruct (HOSTS ds !! i) as [x|]; [|done]. simpl.
    by destruct (decide _).
Qed.

(** ** The text of the failure report *)

Lemma trimRightByte_last s c : last_byte (trimRightByte s c) <> Some c.
Proof.
  induction s as [|a s IH]; [done|]. simpl.
  destruct (trimRightByte s c) as [|b t] eqn:Ht.
  - destruct (Ascii.eqb_spec a c); [done|]. simpl. congruence.
  - done.
Qed.

Lemma trimRightByte_suffix s c :
  exists k : nat, s = trimRightByte s c +:+ string_of_list_ascii (repeat c k).
Proof.
  induction s as [|a s [k IH]]; [by exists 0%nat|]. simpl.
  destruct (trimRightByte s c) as [|b t] eqn:Ht.
  - destruct (Ascii.eqb_spec a c) as [->|Hne].
    + exists (S k). simpl. f_equal. by rewrite IH at 1.
    + exists k. simpl. f_equal. by rewrite IH at 1.
  - exists k. rewrite string_app_cons. f_equal. by rewrite IH at 1.
Qed.

(** X9.  The text of the error a dispatch returns never ends in a comma,
    whatever the names of the failed records: it is the list the scan built
    (every failed name followed by a comma) without the commas at its end,
    of which there is at least one. *)
Theorem report_never_ends_in_comma hs e :
  report hs = Some e ->
  last_byte e <> Some comma
  /\ exists k : nat,
       (1 <= k)%nat
       /\ failedHosts hs = e +:+ string_of_list_ascii (repeat comma k).
Proof.
  unfold report.
  destruct (String.eqb_spec (failedHosts hs) "") as [|Hne]; [done|].
  intros [= <-]. unfold errors_New.
  split; [apply trimRightByte_last|].
  destruct (trimRightByte_suffix (failedHosts hs) comma) as [k Hk].
  exists k. split; [|done].
  destruct k as [|k]; [|lia]. exfalso.
  simpl in Hk. rewrite string_app_nil_r in Hk.
  apply (trimRightByte_last (failedHosts hs) comma). rewrite <- Hk.
  rewrite failedHosts_commas in *.
  destruct (failed_names hs) as [|n l] eqn:Hf; [done|].
  rewrite commas_join by done. by rewrite last_byte_app.
Qed.

Lemma report_never_ends_in_comma_witness :
  let hs := [mkHost "a," [] "" [] (Some "e"); mkHost "" [] "" [] (Some "e")] in
  report hs = Some "a"
  /\ last_byte "a" <> Some comma
  /\ exists k : nat,
       (1 <= k)%nat
       /\ failedHosts hs = "a" +:+ string_of_list_ascii (repeat comma k).
Proof.
  split; [reflexivity|].
  apply (report_never_ends_in_comma
           [mkHost "a," [] "" [] (Some "e"); mkHost "" [] "" [] (Some "e")]).
  reflexivity.
Defined.

(** ** Running a local command *)

Lemma split_byte_nonempty s c : split_byte s c <> [].
Proof.
  induction s as [|a s IH]; [done|]. simpl.
  destruct (Ascii.eqb a c); [done|].
  by destruct (split_byte s c).
Qed.

Lemma join_split_byte s c : join_byte c (split_byte s c) = s.
Proof.
  induction s as [|a s IH]; [done|].
  pose proof (split_byte_nonempty s c) as Hne. simpl.
  destruct (Ascii.eqb_spec a c) as [->|Hac].
  - destruct (split_byte s c) as [|f rest]; [done|].
    change (join_byte c ("" :: f :: rest))
      with ("" +:+ String c (join_byte c (f :: rest))).
    by rewrite IH.
  - destruct (split_byte s c) as [|f rest]; [done|].
    destruct rest as [|g rest]; simpl in *; by rewrite <- IH.
Qed.

Lemma length_split_byte s c : length (split_byte s c) = S (count_byte c s).
Proof.
  induction s as [|a s IH]; [done|].
  pose proof (split_byte_nonempty s c) as Hne. simpl.
  destruct (Ascii.eqb a c); simpl; [by rewrite IH|].
  by destruct (split_byte s c).
Qed.

Lemma split_byte_fields s c :
  Forall (fun field => count_byte c field = 0%nat) (split_byte s c).
Proof.
  induction s as [|a s IH]; [by repeat constructor|]. simpl.
  destruct (Ascii.eqb a c) eqn:Hac; [by constructor|].
  destruct (split_byte s c) as [|f rest]; [repeat constructor; simpl; by rewrite Hac|].
  apply Forall_cons in IH as [Hf Hrest].
  constructor; [|done]. simpl. by rewrite Hac, Hf.
Qed.

Lemma split_byte_last s c :
  last_byte s = Some c -> last (split_byte s c) = Some "".
Proof.
  induction s as [|a s IH]; [done|].
  pose proof (split_byte_nonempty s c) as Hne.
  destruct s as [|b s].
  - intros [= ->]. simpl. by rewrite Ascii.eqb_refl.
  - intros Hl. specialize (IH Hl).
    change (split_byte (String a (String b s)) c)
      with (if Ascii.eqb a c then "" :: split_byte (String b s) c
            else match split_byte (String b s) c with
                 | field :: rest => String a field :: rest
                 | [] => [String a ""]
                 end).
    pose proof (join_split_byte (String b s) c) as Hjoin.
    destruct (split_byte (String b s) c) as [|f rest]; [done|].
    destruct (Ascii.eqb a c); [done|].
    destruct rest; [|exact IH]. simpl in IH, Hjoin. congruence.
Qed.

Lemma RunCmdOutput_success Output s arg out :
  Output s arg = (out, None) ->
  RunCmdOutput Output s arg
  = Some (split_byte (string_of_list_byte out) nl, None).
Proof.
  intros HO. unfold RunCmdOutput. rewrite HO. cbv zeta.
  pose proof (split_byte_nonempty (string_of_list_byte out) nl) as Hne.
  pose proof (split_byte_fields (string_of_list_byte out) nl) as Hf.
  destruct (split_byte (string_of_list_byte out) nl !!
              (length (split_byte (string_of_list_byte out) nl) - 1)%nat)
    as [field|] eqn:Hlast.
  - apply list_elem_of_lookup_2 in Hlast.
    rewrite Forall_forall in Hf. specialize (Hf _ Hlast).
    destruct (String.eqb_spec field newline) as [->|]; [done|done].
  - apply lookup_ge_None in Hlast.
    destruct (split_byte (string_of_list_byte out) nl); [done|].
    simpl in Hlast. lia.
Qed.

(** X10.  When the command succeeds, [RunCmdOutput] returns the fields of
    its output between the newlines, all of them: there is one field more
    than the output has newlines, no field holds a newline, and the fields
    joined with newlines are the output.  The test for a last field equal
    to a newline never holds, so nothing is cut off: an output that ends in
    a newline gives an empty last field. *)
Theorem RunCmdOutput_splits_at_newlines Output s arg out :
  Output s arg = (out, None) ->
  exists lines,
    RunCmdOutput Output s arg = Some (lines, None)
    /\ join_byte nl lines = string_of_list_byte out
    /\ length lines = S (count_byte nl (string_of_list_byte out))
    /\ Forall (fun field => count_byte nl field = 0%nat) lines
    /\ (last_byte (string_of_list_byte out) = Some nl -> last lines = Some "").
Proof.
  intros HO. exists (split_byte (string_of_list_byte out) nl).
  split_and!.
  - by apply RunCmdOutput_success.
  - apply join_split_byte.
  - apply length_split_byte.
  - apply split_byte_fields.
  - apply split_byte_last.
Qed.

Lemma RunCmdOutput_splits_at_newlines_witness :
  let Output := fun (_ : string) (_ : list string) =>
                  (list_byte_of_string ("a" +:+ newline +:+ "b" +:+ newline),
                   @None error) in
  Output "ls" [] = (list_byte_of_string ("a" +:+ newline +:+ "b" +:+ newline), None)
  /\ exists lines,
      RunCmdOutput Output "ls" [] = Some (lines, None)
      /\ join_byte nl lines
         = string_of_list_byte
             (list_byte_of_string ("a" +:+ newline +:+ "b" +:+ newline))
      /\ length lines
         = S (count_byte nl
                (string_of_list_byte
                   (list_byte_of_string ("a" +:+ newline +:+ "b" +:+ newline))))
      /\ Forall (fun field => count_byte nl field = 0%nat) lines
      /\ (last_byte
            (string_of_list_byte
               (list_byte_of_string ("a" +:+ newline +:+ "b" +:+ newline)))
          = Some nl -> last lines = Some "").
Proof.
  split; [reflexivity|].
  apply (RunCmdOutput_splits_at_newlines
           (fun _ _ => (list_byte_of_string ("a" +:+ newline +:+ "b" +:+ newline),
                        None))
           "ls" []).
  reflexivity.
Defined.

(** X11.  [RunCmdOutput] always returns (its index expression is never
    out of range), and it returns either lines or an error: the slice is
    empty exactly when an error is returned, which is exactly when the
    command failed.  The error names the function and carries the command,
    the error of the run and the output. *)
Theorem RunCmdOutput_lines_or_error Output s arg :
  exists lines err,
    RunCmdOutput Output s arg = Some (lines, err)
    /\ (lines = [] <-> err <> None)
    /\ (err <> None <-> (Output s arg).2 <> None)
    /\ (forall e, (Output s arg).2 = Some e ->
          err = Some ("RunCmdOutput",
                      s +:+ ": " +:+ e +:+ newline +:+ "output:"
                        +:+ string_of_list_byte (Output s arg).1)).
Proof.
  destruct (Output s arg) as [out [e|]] eqn:HO.
  - eexists [], _. unfold RunCmdOutput. rewrite HO.
    split_and!; [done|done|done|]. by intros ? [= <-].
  - exists (split_byte (string_of_list_byte out) nl), None.
    split_and!; [by apply RunCmdOutput_success| |done|done].
    split; [|done]. intros Hnil. by apply split_byte_nonempty in Hnil.
Qed.

(** * More on a dispatch *)

(** ** Errors stay *)

Lemma apply_actions_keeps_error acts h :
  CmdError h <> None -> CmdError (apply_actions acts h) <> None.
Proof.
  revert h. induction acts as [|a acts IH]; intros h Hh; [done|].
  apply IH. by destruct a.
Qed.

Lemma report_of_failed hs x :
  x ∈ hs -> CmdError x <> None -> report hs <> None.
Proof.
  intros Hx He Hr. apply report_None in Hr.
  by apply (proj1 (failed_names_nil hs) Hr x) in Hx.
Qed.

Section Sticky.

Variable mon : bool.
Variable mb : Z.
Variable work : nat -> Host -> list action.
Variable hs0 : list Host.

Lemma error_stays c (i : nat) h0 :
  reachable_from mon mb work (start hs0) c ->
  hs0 !! i = Some h0 -> CmdError h0 <> None ->
  exists h, hosts c !! i = Some h /\ CmdError h <> None.
Proof.
  intros Hc Hi He.
  destruct (owned_reachable mon mb work hs0 c Hc) as (_ & _ & Hown & _).
  specialize (Hown i h0 Hi).
  destruct (pool c !! i) as [rest|].
  - destruct Hown as (done & _ & Hh & _).
    eexists. split; [done|]. by apply apply_actions_keeps_error.
  - by exists h0.
Qed.

Lemma stale_error_returned c r :
  (exists h0, h0 ∈ hs0 /\ CmdError h0 <> None) ->
  reachable_from mon mb work (start hs0) c ->
  pc c = Returned r -> r <> None.
Proof.
  intros (h0 & [i Hi]%list_elem_of_lookup & He) Hc. revert r. revert c Hc.
  apply (reachable_invariant mon mb work
           (fun c => forall r, pc c = Returned r -> r <> None)); [done|].
  intros c t c' Hc IH Hstep r Hr.
  destruct t as [|j]; simpl in Hstep.
  - apply step_controller_inv in Hstep
      as [(i' & rc & tot & h & Hpc & _ & ->)
         |[(i' & rc & tot & Hpc & _ & ->)
          |[(i' & k & rc & tot & s & rest & Hpc & _ & _ & ->)
           |(i' & k & rc & tot & Hpc & _ & ->)]]];
      simpl in Hr; try done.
    + by destruct (_ || _).
    + injection Hr as <-.
      destruct (error_stays c i h0 Hc Hi He) as (h & Hh & Hhe).
      apply (report_of_failed _ h); [|done].
      by apply list_elem_of_lookup_2 in Hh.
  - apply step_worker_spec in Hstep
      as (a & rest & _ & _ & _ & [Hsame|[Hex|Hdr]] & _).
    + apply IH. by rewrite <- Hsame.
    + by rewrite Hex in Hr.
    + destruct Hdr as (? & ? & ? & ? & _ & Hd). by rewrite Hd in Hr.
Qed.

End Sticky.

(** X12.  No dispatch clears an error.  A record that holds an error when
    [Execute] or [GetFile] is called holds one in every state of the
    call, and when the call returns it returns an error, also when every
    command of this call succeeded. *)
Theorem stale_error_fails_every_dispatch E ds (i : nat) h0 :
  HOSTS ds !! i = Some h0 -> CmdError h0 <> None ->
  (forall sched c,
      Execute_run E ds sched = Some c ->
      (exists h, hosts c !! i = Some h /\ CmdError h <> None)
      /\ forall r, pc c = Returned r -> r <> None)
  /\ (forall filestring destination sched c,
      GetFile_run E ds filestring destination sched = Some c ->
      (exists h, hosts c !! i = Some h /\ CmdError h <> None)
      /\ forall r, pc c = Returned r -> r <> None).
Proof.
  intros Hi He.
  assert (Hstale : exists h0, h0 ∈ HOSTS ds /\ CmdError h0 <> None).
  { exists h0. split; [|done]. by apply list_elem_of_lookup_2 in Hi. }
  split.
  - intros sched c [(Hdead & Hh & _)|(_ & Hc)]%Execute_run_cases.
    + split; [exists h0; by rewrite Hh|].
      intros r Hr. unfold alive in Hdead. by rewrite Hr in Hdead.
    + split; [by apply (error_stays _ _ _ _ _ _ _ Hc Hi)|].
      intros r. by apply (stale_error_returned _ _ _ _ _ _ Hstale Hc).
  - intros filestring destination sched c
      [(Hdead & Hh & _)|(_ & _ & Hc)]%GetFile_run_cases.
    + split; [exists h0; by rewrite Hh|].
      intros r Hr. unfold alive in Hdead. by rewrite Hr in Hdead.
    + split; [by apply (error_stays _ _ _ _ _ _ _ Hc Hi)|].
      intros r. by apply (stale_error_returned _ _ _ _ _ _ Hstale Hc).
Qed.

Lemma stale_error_fails_every_dispatch_witness :
  let E := mkEnv (fun _ => Some "/usr/bin/ssh")
                 (fun _ _ _ => ([], None)) (fun _ _ _ => ("", None)) in
  let ds := mkDistShell [mkHost "h1" [] "df" [] (Some "exit status 1")]
              true 50 in
  let sched := [Controller; Worker 0; Worker 0; Worker 0; Controller;
                Controller; Controller] in
  exists c,
    Execute_run E ds sched = Some c
    /\ pc c = Returned (Some "h1")
    /\ (exists h, hosts c !! 0%nat = Some h /\ CmdError h <> None)
    /\ forall r, pc c = Returned r -> r <> None.
Proof.
  intros E ds sched.
  assert (Hrun : exists c, Execute_run E ds sched = Some c
                           /\ pc c = Returned (Some "h1")).
  { eexists. split; [vm_compute; reflexivity|reflexivity]. }
  destruct Hrun as (c & Hrun & Hpc). exists c. split_and!; [done..| |].
  - apply (proj1 (stale_error_fails_every_dispatch E ds 0
                    (mkHost "h1" [] "df" [] (Some "exit status 1"))
                    eq_refl ltac:(discriminate)) sched c Hrun).
  - apply (proj1 (stale_error_fails_every_dispatch E ds 0
                    (mkHost "h1" [] "df" [] (Some "exit status 1"))
                    eq_refl ltac:(discriminate)) sched c Hrun).
Defined.

(** ** What a file retrieval leaves alone *)

Lemma apply_actions_keeps_Stdout acts h :
  Forall keeps_Stdout acts -> Stdout (apply_actions acts h) = Stdout h.
Proof.
  revert h. induction acts as [|a acts IH]; intros h Hall; [done|].
  apply Forall_cons in Hall as [Ha Hall].
  change (Stdout (apply_actions acts (apply_action a h)) = Stdout h).
  rewrite IH by done. by destruct a.
Qed.

Lemma GetFile_work_keeps_Stdout E filestring destination (i : nat) h :
  Forall keeps_Stdout (GetFile_work E filestring destination i h).
Proof.
  unfold GetFile_work. destruct (LookPath E "scp") as [SCP|]; [|done].
  unfold getFileTask.
  destruct (kitutils_RunCMD E i SCP (scp_argv h filestring destination))
    as [cmdout [cmderr|]]; by repeat constructor.
Qed.

Lemma GetHostStdout_loop_ext l1 l2 h :
  (fun x => (Name x, Stdout x)) <$> l1 = (fun x => (Name x, Stdout x)) <$> l2 ->
  GetHostStdout_loop l1 h = GetHostStdout_loop l2 h.
Proof.
  revert l2. induction l1 as [|x l1 IH]; intros [|y l2] Heq; try done.
  simpl in Heq. injection Heq as Hn Hs Hrest. simpl.
  rewrite Hn, Hs. by rewrite (IH l2).
Qed.

Lemma fmap_pair_eq {A B C} (f : A -> B) (g : A -> C) (l1 l2 : list A) :
  f <$> l1 = f <$> l2 -> g <$> l1 = g <$> l2 ->
  (fun x => (f x, g x)) <$> l1 = (fun x => (f x, g x)) <$> l2.
Proof.
  revert l2. induction l1 as [|x l1 IH]; intros [|y l2] Hf Hg; try done.
  simpl in *. injection Hf as Hf Hfs. injection Hg as Hg Hgs.
  rewrite Hf, Hg. f_equal. by apply IH.
Qed.

(** X13.  [GetFile] never writes the captured output: in every state of
    the call the [Stdout] of each record is what the session had, so what
    [GetHostStdout] returns after a file retrieval is what it returned
    before, and not the output of [scp]. *)
Theorem GetFile_keeps_Stdout E ds filestring destination sched c :
  GetFile_run E ds filestring destination sched = Some c ->
  Stdout <$> hosts c = Stdout <$> HOSTS ds
  /\ forall h, GetHostStdout (set_HOSTS (hosts c) ds) h = GetHostStdout ds h.
Proof.
  intros Hrun.
  assert (Hout : Stdout <$> hosts c = Stdout <$> HOSTS ds
                 /\ Name <$> hosts c = Name <$> HOSTS ds).
  { apply GetFile_run_cases in Hrun as [(_ & -> & _)|(_ & _ & Hc)]; [done|].
    pose proof (owned_reachable _ _ _ _ _ Hc) as (Hlen & _ & Hown & _).
    split; apply list_eq; intros i; rewrite !list_lookup_fmap.
    - destruct (HOSTS ds !! i) as [h0|] eqn:Hi.
      + specialize (Hown i h0 Hi). destruct (pool c !! i) as [rest|].
        * destruct Hown as (done & Hsplit & -> & _). simpl. f_equal.
          apply apply_actions_keeps_Stdout.
          pose proof (GetFile_work_keeps_Stdout E filestring destination i h0)
            as Hall.
          rewrite Hsplit in Hall. by apply Forall_app in Hall as [? _].
        * by rewrite Hown.
      + apply lookup_ge_None in Hi. rewrite <- Hlen in Hi.
        apply lookup_ge_None in Hi. by rewrite Hi.
    - pose proof (dispatch_keeps_commands _ _ _ _ _ Hc) as Hk.
      apply (f_equal (fun l => l !! i)) in Hk.
      rewrite !list_lookup_fmap in Hk.
      destruct (hosts c !! i), (HOSTS ds !! i); simpl in *; congruence. }
  destruct Hout as [Hs Hn]. split; [done|].
  intros h. unfold GetHostStdout. simpl.
  apply GetHostStdout_loop_ext. by apply fmap_pair_eq.
Qed.

Lemma GetFile_keeps_Stdout_witness :
  let E := mkEnv (fun _ => Some "/usr/bin/scp") (fun _ _ _ => ([], None))
                 (fun _ _ _ => ("lost connection", Some "exit status 1")) in
  let ds := mkDistShell [mkHost "h1" (list_byte_of_string "up 3 days") "uptime"
                           [] None] true 50 in
  let sched := [Controller; Worker 0; Worker 0; Worker 0; Controller;
                Controller; Controller] in
  exists c,
    GetFile_run E ds "/etc/hosts" "/tmp" sched = Some c
    /\ pc c = Returned (Some "h1")
    /\ Stdout <$> hosts c = Stdout <$> HOSTS ds
    /\ forall h, GetHostStdout (set_HOSTS (hosts c) ds) h = GetHostStdout ds h.
Proof.
  intros E ds sched.
  assert (Hrun : exists c, GetFile_run E ds "/etc/hosts" "/tmp" sched = Some c
                           /\ pc c = Returned (Some "h1")).
  { eexists. split; [vm_compute; reflexivity|reflexivity]. }
  destruct Hrun as (c & Hrun & Hpc). exists c. split; [done|]. split; [done|].
  exact (GetFile_keeps_Stdout E ds "/etc/hosts" "/tmp" sched c Hrun).
Defined.

(** ** Every call ends *)






(** ** The records a settled call leaves *)

Lemma settled_final_hosts mon mb work hs0 c :
  reachable_from mon mb work (start hs0) c -> settled c ->
  hosts c = final_hosts work hs0.
Proof.
  intros Hc Hs. apply list_eq. intros i. unfold final_hosts.
  rewrite list_lookup_imap.
  destruct (hs0 !! i) as [h0|] eqn:Hi; simpl.
  - by apply (settled_hosts mon mb work hs0).
  - destruct (owned_reachable _ _ _ _ _ Hc) as (Hlen & _).
    apply lookup_ge_None. rewrite Hlen. by apply lookup_ge_None.
Qed.

(** X15.  The records a settled [Execute] leaves do not depend on the
    interleaving, on the batch size or on monitoring: two settled calls on
    sessions with the same records, in the same environment, leave the same
    records.  The same holds for [GetFile]. *)
Theorem settled_records_do_not_depend_on_schedule E ds1 ds2 :
  HOSTS ds1 = HOSTS ds2 ->
  (forall s1 s2 c1 c2,
      Execute_run E ds1 s1 = Some c1 -> settled c1 ->
      Execute_run E ds2 s2 = Some c2 -> settled c2 ->
      hosts c1 = hosts c2)
  /\ (forall filestring destination s1 s2 c1 c2,
      GetFile_run E ds1 filestring destination s1 = Some c1 -> settled c1 ->
      GetFile_run E ds2 filestring destination s2 = Some c2 -> settled c2 ->
      hosts c1 = hosts c2).
Proof.
  intros Hsame. split.
  - intros s1 s2 c1 c2 H1 Hs1 H2 Hs2.
    apply Execute_run_cases in H1 as [(Hd & _)|(_ & H1)];
      [by rewrite (settled_alive _ Hs1) in Hd|].
    apply Execute_run_cases in H2 as [(Hd & _)|(_ & H2)];
      [by rewrite (settled_alive _ Hs2) in Hd|].
    rewrite (settled_final_hosts _ _ _ _ _ H1 Hs1).
    rewrite (settled_final_hosts _ _ _ _ _ H2 Hs2). by rewrite Hsame.
  - intros filestring destination s1 s2 c1 c2 H1 Hs1 H2 Hs2.
    apply GetFile_run_cases in H1 as [(Hd & _)|(_ & _ & H1)];
      [by rewrite (settled_alive _ Hs1) in Hd|].
    apply GetFile_run_cases in H2 as [(Hd & _)|(_ & _ & H2)];
      [by rewrite (settled_alive _ Hs2) in Hd|].
    rewrite (settled_final_hosts _ _ _ _ _ H1 Hs1).
    rewrite (settled_final_hosts _ _ _ _ _ H2 Hs2). by rewrite Hsame.
Qed.

Lemma settled_records_do_not_depend_on_schedule_witness :
  let E := mkEnv (fun _ => Some "/usr/bin/ssh")
                 (fun i _ _ => match i with
                               | O => (list_byte_of_string "denied",
                                       Some "exit status 255")
                               | _ => (list_byte_of_string "ok", None)
                               end)
                 (fun _ _ _ => ("", None)) in
  let hs := [mkHost "h1" [] "df" [] None; mkHost "h2" [] "df" [] None] in
  let s1 := [Controller; Controller; Worker 0; Worker 0; Worker 0; Worker 0;
             Worker 1; Worker 1; Worker 1; Controller; Controller; Controller;
             Controller] in
  let s2 := [Controller; Worker 0; Worker 0; Worker 0; Worker 0; Controller;
             Controller; Controller; Worker 1; Worker 1; Worker 1; Controller;
             Controller; Controller] in
  exists c1 c2,
    Execute_run E (mkDistShell hs true 50) s1 = Some c1 /\ settled c1
    /\ Execute_run E (mkDistShell hs false 1) s2 = Some c2 /\ settled c2
    /\ length (console c1) = 2%nat /\ console c2 = []
    /\ hosts c1 = hosts c2.
Proof.
  intros E hs s1 s2.
  assert (H1 : exists c, Execute_run E (mkDistShell hs true 50) s1 = Some c
                         /\ settled c /\ length (console c) = 2%nat).
  { eexists. split; [vm_compute; reflexivity|].
    split; [|reflexivity]. split; [eexists; reflexivity|repeat constructor]. }
  assert (H2 : exists c, Execute_run E (mkDistShell hs false 1) s2 = Some c
                         /\ settled c /\ console c = []).
  { eexists. split; [vm_compute; reflexivity|].
    split; [|reflexivity]. split; [eexists; reflexivity|repeat constructor]. }
  destruct H1 as (c1 & Hr1 & Hs1 & Hc1). destruct H2 as (c2 & Hr2 & Hs2 & Hc2).
  exists c1, c2. split_and!; [done..|].
  exact (proj1 (settled_records_do_not_depend_on_schedule E
                  (mkDistShell hs true 50) (mkDistShell hs false 1) eq_refl)
           s1 s2 c1 c2 Hr1 Hs1 Hr2 Hs2).
Defined.

Lemma runCMD_Stdout E (i : nat) h SSH :
  LookPath E "ssh" = Some SSH ->
  Stdout (apply_actions (runCMD E i h) h)
  = (CombinedOutput E i SSH (ssh_argv h)).1.
Proof.
  intros Hssh. unfold runCMD. rewrite Hssh.
  destruct (String.eqb (cmd h) "");
    destruct (CombinedOutput E i SSH (ssh_argv h)) as [out [err|]]; done.
Qed.

(** X16.  A settled [Execute] has found [ssh], and the [Stdout] of every
    record is the combined output of the [ssh] run for that record,
    whether the run failed or not and whether or not the record had a
    command.  For an identity that occurs once, that output is what
    [GetHostStdout] then returns, and never the sentinel unless the output
    itself is those bytes. *)
Theorem Execute_records_combined_output E ds sched c :
  Execute_run E ds sched = Some c -> settled c ->
  HOSTS ds = [] \/
  exists SSH,
    LookPath E "ssh" = Some SSH
    /\ (forall (i : nat) h0,
          HOSTS ds !! i = Some h0 ->
          exists h, hosts c !! i = Some h
                    /\ Name h = Name h0
                    /\ Stdout h = (CombinedOutput E i SSH (ssh_argv h0)).1)
    /\ (forall (i : nat) h0,
          HOSTS ds !! i = Some h0 ->
          Name h0 ∉ Name <$> take i (HOSTS ds) ->
          GetHostStdout (set_HOSTS (hosts c) ds) (Name h0)
          = (CombinedOutput E i SSH (ssh_argv h0)).1).
Proof.
  intros Hrun Hs.
  apply Execute_run_cases in Hrun as [(Hd & _)|(_ & Hc)];
    [by rewrite (settled_alive _ Hs) in Hd|].
  destruct (HOSTS ds) as [|x hs] eqn:Hhs; [by left|]. right.
  rewrite <- Hhs in *.
  assert (Hssh : exists SSH, LookPath E "ssh" = Some SSH).
  { destruct (LookPath E "ssh") as [SSH|] eqn:Hssh; [by exists SSH|].
    exfalso.
    apply (settled_no_Exit _ _ _ _ _ 0%nat x Hc Hs); [by rewrite Hhs|].
    unfold runCMD. rewrite Hssh. apply elem_of_app. right. right. left. }
  destruct Hssh as [SSH Hssh]. exists SSH. split; [done|].
  assert (Hrec : forall (i : nat) h0,
             HOSTS ds !! i = Some h0 ->
             exists h, hosts c !! i = Some h /\ Name h = Name h0
                       /\ Stdout h = (CombinedOutput E i SSH (ssh_argv h0)).1).
  { intros i h0 Hi. eexists. split; [by eapply settled_hosts|].
    split; [apply apply_actions_keeps|by apply runCMD_Stdout]. }
  split; [done|].
  intros i h0 Hi Hfirst.
  destruct (Hrec i h0 Hi) as (h & Hh & Hn & Hout). rewrite <- Hout.
  unfold GetHostStdout. simpl.
  apply (GetHostStdout_loop_found _ _ i); [done..|].
  intros j y Hj Hy Hny. apply Hfirst.
  destruct (lookup_lt_is_Some_2 (HOSTS ds) j) as [y0 Hy0].
  { apply lookup_lt_Some in Hi. lia. }
  destruct (Hrec j y0 Hy0) as (y' & Hy' & Hn' & _).
  assert (y' = y) as -> by congruence.
  apply list_elem_of_fmap. exists y0. split; [congruence|].
  apply list_elem_of_lookup. exists j. by rewrite lookup_take_lt.
Qed.

Lemma Execute_records_combined_output_witness :
  let E := mkEnv (fun _ => Some "/usr/bin/ssh")
                 (fun _ _ _ => (list_byte_of_string "denied",
                                Some "exit status 255"))
                 (fun _ _ _ => ("", None)) in
  let ds := mkDistShell [mkHost "h1" [] "df" [] None] true 50 in
  let sched := [Controller; Worker 0; Worker 0; Worker 0; Worker 0;
                Controller; Controller; Controller] in
  exists c,
    Execute_run E ds sched = Some c /\ settled c
    /\ (HOSTS ds = [] \/
        exists SSH,
          LookPath E "ssh" = Some SSH
          /\ (forall (i : nat) h0,
                HOSTS ds !! i = Some h0 ->
                exists h, hosts c !! i = Some h
                          /\ Name h = Name h0
                          /\ Stdout h = (CombinedOutput E i SSH (ssh_argv h0)).1)
          /\ (forall (i : nat) h0,
                HOSTS ds !! i = Some h0 ->
                Name h0 ∉ Name <$> take i (HOSTS ds) ->
                GetHostStdout (set_HOSTS (hosts c) ds) (Name h0)
                = (CombinedOutput E i SSH (ssh_argv h0)).1)).
Proof.
  intros E ds sched.
  assert (Hrun : exists c, Execute_run E ds sched = Some c /\ settled c).
  { eexists. split; [vm_compute; reflexivity|].
    split; [eexists; reflexivity|repeat constructor]. }
  destruct Hrun as (c & Hrun & Hset). exists c. split; [done|]. split; [done|].
  exact (Execute_records_combined_output E ds sched c Hrun Hset).
Defined.

(** ** Counting launches and receives *)

Section Counting.

Variable mon : bool.
Variable mb : Z.
Variable work : nat -> Host -> list action.
Variable hs0 : list Host.

Lemma count_inv_start : count_inv mb (length hs0) (start hs0).
Proof. unfold count_inv. simpl. split_and!; try done; try lia; by left. Qed.

Lemma count_inv_controller c c' :
  count_inv mb (length hs0) c ->
  step_controller mon mb work c = Some c' ->
  count_inv mb (length hs0) c'.
Proof.
  intros (Hlen & Hlaunched & Hpc) Hstep.
  apply step_controller_inv in Hstep
    as [(i & rc & tot & h & Hc & Hh & ->)
       |[(i & rc & tot & Hc & Hh & ->)
        |[(i & k & rc & tot & s & rest & Hc & Hk & Hchan & ->)
         |(i & k & rc & tot & Hc & Hk & ->)]]];
    rewrite Hc in Hpc; unfold count_inv; cbn [hosts chan pool pc console log].
  - destruct Hpc as (Hp & -> & HiN & Hrc & Hrec & Hor).
    apply lookup_lt_Some in Hh. rewrite Hlen in Hh.
    rewrite launched_app, received_app, length_app, Hlaunched, Hp.
    simpl. rewrite app_nil_r, Hlen. replace (i + 1)%nat with (S i) by lia.
    split_and!; [done|by rewrite seq_S|].
    destruct ((rc + 1 >=? mb) || (Z.of_nat i + 1 >=? Z.of_nat (length hs0)))
      eqn:Hcond.
    + split_and!; try done; lia.
    + apply orb_false_iff in Hcond as [_ Htot].
      split_and!; try done; try lia; right; lia.
  - destruct Hpc as (Hp & -> & HiN & Hrc & Hrec & Hor).
    apply lookup_ge_None in Hh. rewrite Hlen in Hh.
    split_and!; try done; lia.
  - destruct Hpc as (Hp & -> & HiN & Hkrc & Hrec).
    rewrite launched_app, received_app, length_app. simpl.
    rewrite app_nil_r. split_and!; try done; lia.
  - destruct Hpc as (Hp & -> & HiN & Hkrc & Hrec).
    split_and!; try done; try lia; by left.
Qed.

Lemma count_inv_worker j c c' :
  count_inv mb (length hs0) c ->
  step_worker mon mb j c = Some c' ->
  count_inv mb (length hs0) c'.
Proof.
  intros (Hlen & Hlaunched & Hpc) Hstep.
  apply step_worker_inv in Hstep as (_ & a & rest & Hj & Hc').
  assert (Hsame : forall hs' ch' con',
             length hs' = length (hosts c) ->
             count_inv mb (length hs0)
               (mkConfig hs' ch' (<[j := rest]> (pool c)) (pc c) con' (log c))).
  { intros hs' ch' con' Hl. unfold count_inv.
    cbn [hosts chan pool pc console log]. rewrite length_insert.
    split_and!; [congruence|done|done]. }
  destruct a.
  - destruct Hc' as [(_ & _ & ->)|(_ & i & k & rc & tot & Hc & Hk & ->)].
    + by apply Hsame.
    + rewrite Hc in Hpc. destruct Hpc as (Hp & -> & HiN & Hkrc & Hrec).
      unfold count_inv. cbn [hosts chan pool pc console log].
      rewrite launched_app, received_app, length_app, length_insert. simpl.
      rewrite app_nil_r. split_and!; try done; lia.
  - subst c'. apply Hsame. by rewrite length_alter.
  - subst c'. apply Hsame. by rewrite length_alter.
  - subst c'. by apply Hsame.
  - subst c'. by apply Hsame.
  - subst c'. unfold count_inv. cbn [hosts chan pool pc console log].
    by rewrite length_insert.
Qed.

Lemma count_inv_reachable c :
  reachable_from mon mb work (start hs0) c -> count_inv mb (length hs0) c.
Proof.
  revert c. apply (reachable_invariant mon mb work
                     (fun c => count_inv mb (length hs0) c)).
  - apply count_inv_start.
  - intros c [|j] c' _ Hinv Hstep; simpl in Hstep.
    + by eapply count_inv_controller.
    + by eapply count_inv_worker.
Qed.

End Counting.

(** X17.  A call returns only after it has started the work item of every
    record, in session order, and received exactly as many messages as
    there are records, whatever the work items send and whatever the batch
    size.  While the loop runs, [runningCount] is the number of launches
    not yet matched by a receive of an earlier drain. *)
Theorem returns_after_one_receive_per_record mon mb work hs0 c :
  reachable_from mon mb work (start hs0) c ->
  launched (log c) = seq 0 (length (pool c))
  /\ (forall r, pc c = Returned r ->
        length (pool c) = length hs0
        /\ length (received (log c)) = length hs0)
  /\ (forall i rc tot, pc c = Launch i rc tot ->
        Z.of_nat (length (received (log c))) + rc = Z.of_nat i
        /\ length (pool c) = i)
  /\ (forall i k rc tot, pc c = Drain i k rc tot ->
        Z.of_nat (length (received (log c))) + (rc - k) = Z.of_nat (S i)
        /\ 0 <= k <= rc /\ length (pool c) = S i).
Proof.
  intros Hc.
  destruct (count_inv_reachable mon mb work hs0 c Hc) as (_ & Hl & Hpc).
  split_and!; [done|..].
  - intros r Hr. by rewrite Hr in Hpc.
  - intros i rc tot Hp. rewrite Hp in Hpc. tauto.
  - intros i k rc tot Hp. rewrite Hp in Hpc. tauto.
Qed.

Lemma returns_after_one_receive_per_record_witness :
  let E := mkEnv (fun _ => Some "/usr/bin/ssh")
                 (fun _ _ _ => ([], None)) (fun _ _ _ => ("", None)) in
  let hs := [zeroHost "h1"; zeroHost "h2"] in
  let sched := [Controller; Worker 0; Controller; Controller; Controller;
                Worker 1; Controller; Controller; Controller] in
  exists c,
    run true 1 (runCMD E) sched (start hs) = Some c
    /\ pc c = Returned None
    /\ length (unsent (pool c)) = 2%nat
    /\ length (pool c) = length hs
    /\ length (received (log c)) = length hs.
Proof.
  intros E hs sched.
  assert (Hrun : exists c, run true 1 (runCMD E) sched (start hs) = Some c
                           /\ pc c = Returned None
                           /\ length (unsent (pool c)) = 2%nat).
  { eexists. split; [vm_compute; reflexivity|]. split; reflexivity. }
  destruct Hrun as (c & Hrun & Hpc & Hun). exists c. split_and!; [done..| |].
  - apply (proj1 (proj2 (returns_after_one_receive_per_record true 1 (runCMD E)
                           hs c (ex_intro _ sched Hrun))) None Hpc).
  - apply (proj1 (proj2 (returns_after_one_receive_per_record true 1 (runCMD E)
                           hs c (ex_intro _ sched Hrun))) None Hpc).
Defined.

(** ** Where the messages are *)

Lemma unsent_app p q : unsent (p ++ q) = unsent p ++ unsent q.
Proof. unfold unsent. by rewrite fmap_app, concat_app. Qed.

Lemma unsent_step (p : list (list action)) (j : nat) a rest :
  p !! j = Some (a :: rest) ->
  unsent p ≡ₚ sends [a] ++ unsent (<[j := rest]> p).
Proof.
  intros Hj.
  rewrite <- (take_drop_middle p j (a :: rest) Hj) at 1.
  rewrite insert_take_drop by (by eapply lookup_lt_Some).
  rewrite !unsent_app.
  change (unsent ((a :: rest) :: drop (S j) p))
    with (sends ([a] ++ rest) ++ unsent (drop (S j) p)).
  change (unsent (rest :: drop (S j) p))
    with (sends rest ++ unsent (drop (S j) p)).
  rewrite sends_app, <- app_assoc. apply Permutation_app_swap_app.
Qed.

Section Accounting.

Variable mon : bool.
Variable mb : Z.
Variable work : nat -> Host -> list action.
Variable hs0 : list Host.

Lemma messages_S (n : nat) h :
  hs0 !! n = Some h ->
  messages work hs0 (S n) = messages work hs0 n ++ sends (work n h).
Proof.
  intros Hn. unfold messages.
  rewrite seq_S, fmap_app, concat_app. simpl. by rewrite Hn, app_nil_r.
Qed.

Lemma accounted_controller c c' :
  owned work hs0 c ->
  accounted work hs0 c ->
  step_controller mon mb work c = Some c' ->
  accounted work hs0 c'.
Proof.
  intros (Hlen & _ & Hown & Hpc) Hacc Hstep. unfold accounted in *.
  apply step_controller_inv in Hstep
    as [(i & rc & tot & h & Hc & Hh & ->)
       |[(i & rc & tot & Hc & Hh & ->)
        |[(i & k & rc & tot & s & rest & Hc & Hk & Hchan & ->)
         |(i & k & rc & tot & Hc & Hk & ->)]]];
    cbn [hosts chan pool pc console log]; try done.
  - rewrite Hc in Hpc.
    destruct (lookup_lt_is_Some_2 hs0 i) as [h0 Hh0].
    { rewrite <- Hlen. by eapply lookup_lt_Some. }
    specialize (Hown i h0 Hh0).
    rewrite (lookup_ge_None_2 (pool c) i) in Hown by lia.
    assert (h = h0) as -> by congruence.
    rewrite received_app, unsent_app, length_app. simpl.
    rewrite Hpc in *. replace (i + 1)%nat with (S i) by lia.
    rewrite (messages_S i h0 Hh0), <- Hacc.
    unfold unsent at 2. simpl. by rewrite !app_nil_r, <- !app_assoc.
  - rewrite received_app. simpl. rewrite <- Hacc, Hchan.
    by rewrite <- !app_assoc.
Qed.

Lemma accounted_worker j c c' :
  accounted work hs0 c ->
  step_worker mon mb j c = Some c' ->
  accounted work hs0 c'.
Proof.
  intros Hacc Hstep. unfold accounted in *.
  apply step_worker_inv in Hstep as (_ & a & rest & Hj & Hc').
  pose proof (unsent_step (pool c) j a rest Hj) as HU.
  rewrite HU in Hacc.
  destruct a;
    [destruct Hc' as [(_ & _ & ->)|(_ & i & k & rc & tot & Hc & Hk & ->)]|..];
    try subst c'; cbn [hosts chan pool pc console log];
    rewrite length_insert, <- Hacc; simpl.
  - by rewrite <- !app_assoc.
  - rewrite received_app. simpl. rewrite <- !app_assoc.
    apply Permutation_app_head. simpl. apply Permutation_middle.
  - done.
  - done.
  - done.
  - done.
  - done.
Qed.

Lemma accounted_reachable c :
  reachable_from mon mb work (start hs0) c -> accounted work hs0 c.
Proof.
  revert c. apply (reachable_invariant mon mb work
                     (fun c => accounted work hs0 c));
    [unfold accounted; simpl; reflexivity|].
  intros c [|j] c' Hc Hinv Hstep; simpl in Hstep.
  - eapply accounted_controller; [|done..]. by eapply owned_reachable.
  - by eapply accounted_worker.
Qed.

Lemma messages_length_one (n : nat) :
  one_message work hs0 -> (n <= length hs0)%nat ->
  length (messages work hs0 n) = n.
Proof.
  intros Hone. induction n as [|n IH]; intros Hn; [done|].
  destruct (lookup_lt_is_Some_2 hs0 n) as [h Hh]; [lia|].
  rewrite (messages_S n h Hh), length_app, IH, (Hone n h Hh) by lia. lia.
Qed.

End Accounting.

(** X18.  No message is lost or made up: in every state of a call the
    messages received, those in the channel and those the started work
    items have yet to send are, up to order, the messages of the work
    items started.  When every work item sends one message, a call that
    returns has received the message of every record, the channel is empty
    and no work item has a message left to send. *)
Theorem messages_are_conserved mon mb work hs0 c :
  reachable_from mon mb work (start hs0) c ->
  received (log c) ++ chan c ++ unsent (pool c)
    ≡ₚ messages work hs0 (length (pool c))
  /\ (forall r,
        pc c = Returned r -> one_message work hs0 ->
        received (log c) ≡ₚ messages work hs0 (length hs0)
        /\ chan c = [] /\ unsent (pool c) = []).
Proof.
  intros Hc.
  pose proof (accounted_reachable mon mb work hs0 c Hc) as Hacc.
  split; [done|]. intros r Hr Hone.
  destruct (count_inv_reachable mon mb work hs0 c Hc) as (_ & _ & Hpc).
  rewrite Hr in Hpc. destruct Hpc as [Hp Hrec].
  unfold accounted in Hacc. rewrite Hp in Hacc.
  pose proof (Permutation_length Hacc) as Hlen.
  rewrite !length_app, messages_length_one in Hlen by done.
  assert (Hchan : chan c = []) by (apply length_zero_iff_nil; lia).
  assert (Hun : unsent (pool c) = []) by (apply length_zero_iff_nil; lia).
  rewrite Hchan, Hun in Hacc. simpl in Hacc. by rewrite app_nil_r in Hacc.
Qed.

Lemma messages_are_conserved_witness :
  let E := mkEnv (fun _ => Some "/usr/bin/scp") (fun _ _ _ => ([], None))
                 (fun i _ _ => match i with
                               | O => ("", None)
                               | _ => ("lost connection", Some "exit status 1")
                               end) in
  let hs := [zeroHost "h1"; zeroHost "h2"] in
  let work := GetFile_work E "/etc/hosts" "/tmp" in
  let sched := [Controller; Controller; Worker 1; Worker 1; Worker 1;
                Worker 0; Worker 0; Controller; Controller; Controller;
                Controller] in
  exists c,
    run true 2 work sched (start hs) = Some c
    /\ received (log c)
       = ["h2: ERROR lost connection: exit status 1"; "h1: SUCCESS"]
    /\ messages work hs 2
       = ["h1: SUCCESS"; "h2: ERROR lost connection: exit status 1"]
    /\ received (log c) ++ chan c ++ unsent (pool c)
       ≡ₚ messages work hs (length (pool c)).
Proof.
  intros E hs work sched.
  assert (Hrun : exists c,
             run true 2 work sched (start hs) = Some c
             /\ received (log c)
                = ["h2: ERROR lost connection: exit status 1"; "h1: SUCCESS"]).
  { eexists. split; [vm_compute; reflexivity|reflexivity]. }
  destruct Hrun as (c & Hrun & Hrec). exists c.
  split; [done|]. split; [done|]. split; [reflexivity|].
  exact (proj1 (messages_are_conserved true 2 work hs c
                  (ex_intro _ sched Hrun))).
Defined.

Lemma runCMD_messages_length E hs SSH (n : nat) :
  LookPath E "ssh" = Some SSH -> (n <= length hs)%nat ->
  length (messages (runCMD E) hs n)
  = (n + length (filter (fun h => cmd h = "") (take n hs)))%nat.
Proof.
  intros Hssh. induction n as [|n IH]; intros Hn; [done|].
  destruct (lookup_lt_is_Some_2 hs n) as [h Hh]; [lia|].
  rewrite (messages_S _ _ n h Hh), length_app, IH by lia.
  rewrite (take_S_r _ _ _ Hh), filter_app, length_app.
  unfold runCMD. rewrite Hssh.
  destruct (String.eqb_spec (cmd h) "") as [He|He].
  - rewrite filter_cons_True by done.
    destruct (CombinedOutput E n SSH (ssh_argv h)) as [out [err|]]; simpl; lia.
  - rewrite filter_cons_False by done.
    destruct (CombinedOutput E n SSH (ssh_argv h)) as [out [err|]]; simpl; lia.
Qed.

(** X19.  When [Execute] returns, one message for each record without a
    command has not been received: [runCMD] sends two messages for such a
    record and the loop receives one for each record.  The message is in
    the channel, or the goroutine of some record has yet to send it. *)
Theorem Execute_leaves_a_message_per_missing_command E ds sched c r SSH :
  LookPath E "ssh" = Some SSH ->
  Execute_run E ds sched = Some c ->
  pc c = Returned r ->
  (length (chan c) + length (unsent (pool c)))%nat
  = length (filter (fun h => cmd h = "") (HOSTS ds)).
Proof.
  intros Hssh Hrun Hr.
  apply Execute_run_cases in Hrun as [(Hd & _)|(_ & Hc)].
  { unfold alive in Hd. by rewrite Hr in Hd. }
  pose proof (accounted_reachable _ _ _ _ _ Hc) as Hacc.
  destruct (count_inv_reachable _ _ _ _ _ Hc) as (_ & _ & Hpc).
  rewrite Hr in Hpc. destruct Hpc as [Hp Hrec].
  unfold accounted in Hacc. rewrite Hp in Hacc.
  apply Permutation_length in Hacc.
  rewrite !length_app, (runCMD_messages_length E _ SSH) in Hacc by done.
  rewrite firstn_all in Hacc. lia.
Qed.

Lemma Execute_leaves_a_message_per_missing_command_witness :
  let E := mkEnv (fun _ => Some "/usr/bin/ssh")
                 (fun _ _ _ => ([], None)) (fun _ _ _ => ("", None)) in
  let ds := SetMaxBatch 1 (New ["h1"; "h2"]) in
  let sched := [Controller; Worker 0; Controller; Controller; Controller;
                Worker 1; Controller; Controller; Controller] in
  exists c,
    Execute_run E ds sched = Some c
    /\ pc c = Returned None
    /\ (length (chan c) + length (unsent (pool c)))%nat
       = length (filter (fun h => cmd h = "") (HOSTS ds)).
Proof.
  intros E ds sched.
  assert (Hrun : exists c, Execute_run E ds sched = Some c
                           /\ pc c = Returned None).
  { eexists. split; [vm_compute; reflexivity|reflexivity]. }
  destruct Hrun as (c & Hrun & Hpc). exists c. split; [done|]. split; [done|].
  exact (Execute_leaves_a_message_per_missing_command E ds sched c None
           "/usr/bin/ssh" eq_refl Hrun Hpc).
Defined.

(** ** Monitoring *)

Lemma without_console_eq c1 c2 :
  without_console c1 = without_console c2 <->
  hosts c1 = hosts c2 /\ chan c1 = chan c2 /\ pool c1 = pool c2
  /\ pc c1 = pc c2 /\ log c1 = log c2.
Proof.
  destruct c1, c2. unfold without_console. simpl. split.
  - by intros [= -> -> -> -> ->].
  - by intros (-> & -> & -> & -> & ->).
Qed.

Lemma step_without_console mon1 mon2 mb work t c1 c2 :
  without_console c1 = without_console c2 ->
  without_console <$> step mon1 mb work t c1
  = without_console <$> step mon2 mb work t c2.
Proof.
  intros (Hh & Hch & Hp & Hpc & Hl)%without_console_eq.
  destruct t as [|j]; simpl.
  - unfold step_controller, receive. rewrite <- Hh, <- Hch, <- Hp, <- Hpc, <- Hl.
    destruct (pc c1) as [i rc tot|i k rc tot|r| |]; try done.
    + destruct (hosts c1 !! i); simpl; [|done].
      by destruct (_ || _).
    + destruct (k <? rc); [|done]. by destruct (chan c1).
  - unfold step_worker, alive. rewrite <- Hp, <- Hpc.
    destruct (pc c1) as [i rc tot|i k rc tot|r| |] eqn:Hpc1; try done;
      destruct (pool c1 !! j) as [[|a rest]|]; try done;
      destruct a; simpl; unfold step_send, receive;
      rewrite <- ?Hh, <- ?Hch, <- ?Hp, <- ?Hpc, <- ?Hl, ?Hpc1;
      repeat case_match; simpl; try done;
      unfold without_console, set_pool; simpl; congruence.
Qed.

Lemma run_without_console mon1 mon2 mb work sched c1 c2 :
  without_console c1 = without_console c2 ->
  without_console <$> run mon1 mb work sched c1
  = without_console <$> run mon2 mb work sched c2.
Proof.
  revert c1 c2. induction sched as [|t sched IH]; intros c1 c2 Heq; simpl.
  - by rewrite Heq.
  - pose proof (step_without_console mon1 mon2 mb work t c1 c2 Heq) as Hstep.
    destruct (step mon1 mb work t c1) as [c1'|],
             (step mon2 mb work t c2) as [c2'|]; simpl in *; try done.
    apply IH. congruence.
Qed.

(** X20.  Monitoring changes the console and nothing else.  Under every
    schedule a call with monitoring enabled and the same call with
    monitoring disabled take the same steps and reach states that agree on
    the records, the channel, the work items, the result and the log of
    launches and receives. *)
Theorem monitoring_only_changes_console E ds sched :
  without_console <$> Execute_run E (EnableMonitoring ds) sched
  = without_console <$> Execute_run E (DisableMonitoring ds) sched
  /\ forall filestring destination,
      without_console
        <$> GetFile_run E (EnableMonitoring ds) filestring destination sched
      = without_console
        <$> GetFile_run E (DisableMonitoring ds) filestring destination sched.
Proof.
  split.
  - unfold Execute_run, Execute_start. simpl.
    by apply run_without_console.
  - intros filestring destination. unfold GetFile_run, GetFile_start. simpl.
    by apply run_without_console.
Qed.

(** ** What is printed *)

Lemma GetFile_work_quiet E filestring destination (i : nat) h :
  Forall quiet (GetFile_work E filestring destination i h).
Proof.
  unfold GetFile_work. destruct (LookPath E "scp") as [SCP|]; [|done].
  unfold getFileTask.
  destruct (kitutils_RunCMD E i SCP (scp_argv h filestring destination))
    as [cmdout [cmderr|]]; by repeat constructor.
Qed.

Lemma console_of_quiet mon mb work hs c :
  (forall (i : nat) h, Forall quiet (work i h)) ->
  reachable_from mon mb work (start hs) c ->
  console c = if mon then Println <$> received (log c) else [].
Proof.
  intros Hquiet. revert c.
  apply (reachable_invariant mon mb work
           (fun c => console c
                     = if mon then Println <$> received (log c) else [])).
  { by destruct mon. }
  intros c t c' Hc Hcon Hstep. destruct t as [|j]; simpl in Hstep.
  - apply step_controller_inv in Hstep
      as [(i & rc & tot & h & _ & _ & ->)
         |[(i & rc & tot & _ & _ & ->)
          |[(i & k & rc & tot & s & rest & _ & _ & _ & ->)
           |(i & k & rc & tot & _ & _ & ->)]]];
      cbn [hosts chan pool pc console log]; try done.
    + rewrite received_app. simpl. by rewrite app_nil_r.
    + rewrite received_app, Hcon. simpl.
      destruct mon; [|done]. by rewrite fmap_app.
  - pose proof (pool_quiet mon mb work hs c Hquiet Hc) as Hq.
    apply step_worker_inv in Hstep as (_ & a & rest & Hj & Hc').
    rewrite Forall_lookup in Hq. specialize (Hq j _ Hj).
    apply Forall_cons in Hq as [Ha _].
    destruct a; try done;
      [destruct Hc' as [(_ & _ & ->)|(_ & i & k & rc & tot & _ & _ & ->)]|..];
      try subst c'; cbn [hosts chan pool pc console log]; try done.
    rewrite received_app, Hcon. simpl.
    destruct mon; [|done]. by rewrite fmap_app.
Qed.

(** X21.  What a call prints: when [ssh] is found, the console of
    [Execute] holds the messages received, each on a line of its own, in
    the order they were received, and nothing else; with monitoring
    disabled it stays empty.  The same holds for [GetFile] when [scp] is
    found. *)
Theorem console_shows_the_messages_received E ds sched c :
  (LookPath E "ssh" <> None ->
   Execute_run E ds sched = Some c ->
   console c = if monitor ds then Println <$> received (log c) else [])
  /\ (forall filestring destination,
        LookPath E "scp" <> None ->
        GetFile_run E ds filestring destination sched = Some c ->
        console c = if monitor ds then Println <$> received (log c) else []).
Proof.
  split.
  - intros Hssh Hrun. unfold Execute_run, Execute_start in Hrun.
    destruct (maxBatch ds <? 0).
    + apply run_dead in Hrun as [_ ->]; [|done]. by destruct (monitor ds).
    + destruct (LookPath E "ssh") as [SSH|] eqn:Hl; [|done].
      apply (console_of_quiet _ (maxBatch ds) (runCMD E) (HOSTS ds));
        [|by exists sched].
      apply (runCMD_two_sends E SSH Hl).
  - intros filestring destination Hscp Hrun.
    unfold GetFile_run, GetFile_start in Hrun.
    destruct (maxBatch ds <? 0).
    + apply run_dead in Hrun as [_ ->]; [|done]. by destruct (monitor ds).
    + destruct (LookPath E "scp") as [SCP|] eqn:Hl; [|done].
      apply (console_of_quiet _ (maxBatch ds)
               (GetFile_work E filestring destination) (HOSTS ds));
        [|by exists sched].
      apply GetFile_work_quiet.
Qed.

Lemma console_shows_the_messages_received_witness :
  let E := mkEnv (fun _ => Some "/usr/bin/ssh")
                 (fun _ _ _ => ([], None)) (fun _ _ _ => ("", None)) in
  let ds := mkDistShell [mkHost "h1" [] "df" [] None] true 50 in
  let sched := [Controller; Worker 0; Worker 0; Worker 0; Controller;
                Controller; Controller] in
  exists c,
    Execute_run E ds sched = Some c
    /\ received (log c) = ["INFO: completed running command on host h1"]
    /\ console c = if monitor ds then Println <$> received (log c) else [].
Proof.
  intros E ds sched.
  assert (Hrun : exists c,
             Execute_run E ds sched = Some c
             /\ received (log c) = ["INFO: completed running command on host h1"]).
  { eexists. split; [vm_compute; reflexivity|reflexivity]. }
  destruct Hrun as (c & Hrun & Hrec). exists c. split; [done|]. split; [done|].
  exact (proj1 (console_shows_the_messages_received E ds sched c)
           ltac:(discriminate) Hrun).
Defined.

(** ** What a file retrieval returns *)

Lemma GetFile_work_sends_last E filestring destination (i : nat) h done rest :
  GetFile_work E filestring destination i h = done ++ rest ->
  sends rest = [] -> rest = [].
Proof.
  unfold GetFile_work. destruct (LookPath E "scp") as [SCP|].
  - unfold getFileTask.
    destruct (kitutils_RunCMD E i SCP (scp_argv h filestring destination))
      as [cmdout [cmderr|]]; intros Hsplit Hsends;
      repeat (destruct done as [|? done]; simpl in Hsplit;
              [by subst rest|
               injection Hsplit as <- Hsplit]);
      by destruct done, rest.
  - intros Hsplit _. symmetry in Hsplit. by apply app_eq_nil in Hsplit as [_ ?].
Qed.

Lemma not_in_flight_no_sends (p : list (list action)) :
  length (filter pending p) = 0%nat -> Forall (fun acts => sends acts = []) p.
Proof.
  intros Hz. apply Forall_forall. intros acts Hin.
  destruct (sends acts) as [|s l] eqn:Hs; [done|]. exfalso.
  assert (Hf : acts ∈ filter pending p).
  { apply list_elem_of_filter. split; [|done]. unfold pending. by rewrite Hs. }
  apply length_zero_iff_nil in Hz. rewrite Hz in Hf.
  by apply elem_of_nil in Hf.
Qed.

Section Retrieval.

Variable E : Env.
Variable mon : bool.
Variable mb : Z.
Variable filestring destination : string.
Variable hs0 : list Host.
Variable SCP : string.
Hypothesis Hscp : LookPath E "scp" = Some SCP.

Lemma GetFile_returned_settled c r :
  reachable_from mon mb (GetFile_work E filestring destination) (start hs0) c ->
  pc c = Returned r -> settled c.
Proof.
  intros Hc Hr. split; [by exists r|].
  destruct (GetFile_work_one_message E filestring destination hs0 SCP Hscp)
    as [Hone _].
  destruct (batch_inv_reachable mon mb _ hs0 Hone c Hc) as (_ & _ & _ & _ & Hpc).
  rewrite Hr in Hpc. destruct Hpc as (_ & Hfl & _ & Hp).
  apply not_in_flight_no_sends in Hfl.
  destruct (owned_reachable _ _ _ _ _ Hc) as (_ & _ & Hown & _).
  apply Forall_lookup. intros i rest Hi.
  rewrite Forall_lookup in Hfl. specialize (Hfl i rest Hi).
  destruct (lookup_lt_is_Some_2 hs0 i) as [h0 Hh0].
  { rewrite <- Hp. by eapply lookup_lt_Some. }
  specialize (Hown i h0 Hh0). rewrite Hi in Hown.
  destruct Hown as (done & Hsplit & _).
  by eapply GetFile_work_sends_last.
Qed.

Lemma GetFile_returned_report c r :
  reachable_from mon mb (GetFile_work E filestring destination) (start hs0) c ->
  pc c = Returned r -> r = report (hosts c).
Proof.
  intros Hc. revert r. revert c Hc.
  apply (reachable_invariant mon mb (GetFile_work E filestring destination)
           (fun c => forall r, pc c = Returned r -> r = report (hosts c)));
    [done|].
  intros c t c' Hc IH Hstep r Hr.
  destruct t as [|j]; simpl in Hstep.
  - apply step_controller_inv in Hstep
      as [(i' & rc & tot & h & Hpc & _ & ->)
         |[(i' & rc & tot & Hpc & _ & ->)
          |[(i' & k & rc & tot & s & rest & Hpc & _ & _ & ->)
           |(i' & k & rc & tot & Hpc & _ & ->)]]];
      simpl in Hr; try done.
    + by destruct (_ || _).
    + by injection Hr as <-.
  - pose proof Hstep as Hstep'.
    apply step_worker_spec in Hstep
      as (a & rest & Hj & _ & _ & [Hsame|[Hex|Hdr]] & _).
    + rewrite Hsame in Hr.
      destruct (GetFile_returned_settled c r Hc Hr) as [_ Hall].
      rewrite Forall_lookup in Hall. by specialize (Hall j _ Hj).
    + by rewrite Hex in Hr.
    + destruct Hdr as (? & ? & ? & ? & _ & Hd). by rewrite Hd in Hr.
Qed.

End Retrieval.

(** X22.  The result of [GetFile] is never stale.  Its work items send
    their message last, so when the call returns every work item has ended
    and the records are final: the result is the report of the records as
    they are, under every interleaving.  ([Execute] can return [nil] and
    leave a record with an error, because [runCMD] sends before it writes
    the error.) *)
Theorem GetFile_returns_the_final_report E ds filestring destination sched c r :
  GetFile_run E ds filestring destination sched = Some c ->
  pc c = Returned r ->
  settled c
  /\ hosts c = final_hosts (GetFile_work E filestring destination) (HOSTS ds)
  /\ r = report (hosts c).
Proof.
  intros Hrun Hr.
  apply GetFile_run_cases in Hrun as [(Hd & _)|(_ & [SCP Hscp] & Hc)].
  { unfold alive in Hd. by rewrite Hr in Hd. }
  pose proof (GetFile_returned_settled E _ _ _ _ _ SCP Hscp c r Hc Hr) as Hs.
  split_and!; [done| |].
  - by eapply settled_final_hosts.
  - by eapply GetFile_returned_report.
Qed.

Lemma GetFile_returns_the_final_report_witness :
  let E := mkEnv (fun _ => Some "/usr/bin/scp") (fun _ _ _ => ([], None))
                 (fun _ _ _ => ("lost connection", Some "exit status 1")) in
  let ds := New ["h1"] in
  let sched := [Controller; Worker 0; Worker 0; Worker 0; Controller;
                Controller; Controller] in
  exists c,
    GetFile_run E ds "/etc/hosts" "/tmp" sched = Some c
    /\ pc c = Returned (Some "h1")
    /\ settled c
    /\ hosts c = final_hosts (GetFile_work E "/etc/hosts" "/tmp") (HOSTS ds)
    /\ Some "h1" = report (hosts c).
Proof.
  intros E ds sched.
  assert (Hrun : exists c, GetFile_run E ds "/etc/hosts" "/tmp" sched = Some c
                           /\ pc c = Returned (Some "h1")).
  { eexists. split; [vm_compute; reflexivity|reflexivity]. }
  destruct Hrun as (c & Hrun & Hpc). exists c. split; [done|]. split; [done|].
  exact (GetFile_returns_the_final_report E ds "/etc/hosts" "/tmp" sched c
           (Some "h1") Hrun Hpc).
Defined.

(** ** Calls that end before the loop *)

(** X23.  A negative batch size ends both calls at [make]: no schedule but
    the empty one is accepted, nothing is launched, looked up or printed,
    and the records are untouched. *)
Theorem negative_batch_size_panics E ds :
  maxBatch ds < 0 ->
  (forall sched c,
      Execute_run E ds sched = Some c <-> sched = [] /\ c = panicked ds)
  /\ (forall filestring destination sched c,
      GetFile_run E ds filestring destination sched = Some c
      <-> sched = [] /\ c = panicked ds).
Proof.
  intros Hneg. apply Z.ltb_lt in Hneg. split.
  - intros sched c. unfold Execute_run, Execute_start. rewrite Hneg. split.
    + by intros Hrun%run_dead.
    + by intros [-> ->].
  - intros filestring destination sched c.
    unfold GetFile_run, GetFile_start. rewrite Hneg. split.
    + by intros Hrun%run_dead.
    + by intros [-> ->].
Qed.

Lemma negative_batch_size_panics_witness :
  let E := mkEnv (fun _ => Some "/usr/bin/ssh")
                 (fun _ _ _ => ([], None)) (fun _ _ _ => ("", None)) in
  let ds := SetMaxBatch (-1) (New ["h1"]) in
  maxBatch ds < 0
  /\ Execute_run E ds [] = Some (panicked ds)
  /\ Execute_run E ds [Controller] = None.
Proof.
  intros E ds.
  assert (Hneg : maxBatch ds < 0) by done.
  split; [done|]. split.
  - by apply (proj1 (negative_batch_size_panics E ds Hneg)).
  - destruct (Execute_run E ds [Controller]) as [c|] eqn:Hrun; [|done].
    by apply (proj1 (negative_batch_size_panics E ds Hneg)) in Hrun as [? _].
Defined.



(** ** Without ssh *)

Lemma runCMD_without_ssh_messages E hs (n : nat) :
  LookPath E "ssh" = None ->
  (forall h, h ∈ hs -> cmd h <> "") ->
  messages (runCMD E) hs n = [].
Proof.
  intros Hssh Hcmd. unfold messages.
  induction n as [|n IH]; [done|].
  rewrite seq_S, fmap_app, concat_app, IH. simpl.
  destruct (hs !! n) as [h|] eqn:Hn; [|done].
  unfold runCMD. rewrite Hssh.
  apply list_elem_of_lookup_2, Hcmd, String.eqb_neq in Hn. by rewrite Hn.
Qed.

(** X25.  With [ssh] missing from the path, [Execute] on a session with at
    least one record never settles: every work item ends the process.
    When every record has a command the work items send nothing, so the
    call receives nothing and cannot return either. *)
Theorem Execute_without_ssh_never_settles E ds sched c :
  LookPath E "ssh" = None ->
  HOSTS ds <> [] ->
  Execute_run E ds sched = Some c ->
  (settled c -> False)
  /\ ((forall h, h ∈ HOSTS ds -> cmd h <> "") ->
      received (log c) = [] /\ chan c = []
      /\ forall r, pc c = Returned r -> False).
Proof.
  intros Hssh Hne Hrun.
  unfold Execute_run, Execute_start in Hrun.
  destruct (maxBatch ds <? 0).
  { apply run_dead in Hrun as [_ ->]; [|done]. split.
    - intros Hs. by apply settled_alive in Hs.
    - by intros _. }
  assert (Hc : reachable_from (monitor ds) (maxBatch ds) (runCMD E)
                 (start (HOSTS ds)) c) by (by exists sched).
  split.
  - intros Hs. destruct (HOSTS ds) as [|x hs] eqn:Hhs; [done|].
    apply (settled_no_Exit _ _ _ _ _ 0%nat x Hc Hs); [done|].
    unfold runCMD. rewrite Hssh. apply elem_of_app. right. right. left.
  - intros Hcmd.
    pose proof (accounted_reachable _ _ _ _ _ Hc) as Hacc.
    unfold accounted in Hacc.
    rewrite runCMD_without_ssh_messages in Hacc by done.
    apply Permutation_nil_r in Hacc.
    apply app_eq_nil in Hacc as [Hrec [Hchan _]%app_eq_nil].
    split_and!; [done..|].
    intros r Hr.
    destruct (count_inv_reachable _ _ _ _ _ Hc) as (_ & _ & Hpc).
    rewrite Hr, Hrec in Hpc. destruct Hpc as [_ Hlen].
    destruct (HOSTS ds); [done|]. simpl in Hlen. lia.
Qed.

Lemma Execute_without_ssh_never_settles_witness :
  let E := mkEnv (fun _ => None) (fun _ _ _ => ([], None))
                 (fun _ _ _ => ("", None)) in
  let ds := (AddCommand (New ["h1"]) "h1" "df" []).1 in
  let sched := [Controller; Worker 0; Worker 0] in
  exists c,
    Execute_run E ds sched = Some c
    /\ pc c = Exited
    /\ console c = ["Unable to find ssh in $PATH" +:+ newline]
    /\ (settled c -> False)
    /\ ((forall h, h ∈ HOSTS ds -> cmd h <> "") ->
        received (log c) = [] /\ chan c = []
        /\ forall r, pc c = Returned r -> False).
Proof.
  intros E ds sched.
  assert (Hrun : exists c,
             Execute_run E ds sched = Some c /\ pc c = Exited
             /\ console c = ["Unable to find ssh in $PATH" +:+ newline]).
  { eexists. split; [vm_compute; reflexivity|]. split; reflexivity. }
  destruct Hrun as (c & Hrun & Hpc & Hcon). exists c. split_and!; [done..| |].
  - apply (Execute_without_ssh_never_settles E ds sched c eq_refl
             ltac:(discriminate) Hrun).
  - apply (Execute_without_ssh_never_settles E ds sched c eq_refl
             ltac:(discriminate) Hrun).
Defined.

(** ** When nothing fails *)

Lemma apply_actions_keeps_CmdError acts h :
  Forall keeps_CmdError acts -> CmdError (apply_actions acts h) = CmdError h.
Proof.
  revert h. induction acts as [|a acts IH]; intros h Hall; [done|].
  apply Forall_cons in Hall as [Ha Hall].
  change (CmdError (apply_actions acts (apply_action a h)) = CmdError h).
  rewrite IH by done. by destruct a.
Qed.

Section NoFailure.

Variable mon : bool.
Variable mb : Z.
Variable work : nat -> Host -> list action.
Variable hs0 : list Host.
Hypothesis Hclean :
  forall (i : nat) h0, hs0 !! i = Some h0 ->
    CmdError h0 = None /\ Forall keeps_CmdError (work i h0).

Lemma no_error_appears c x :
  reachable_from mon mb work (start hs0) c ->
  x ∈ hosts c -> CmdError x = None.
Proof.
  intros Hc [i Hi]%list_elem_of_lookup.
  destruct (owned_reachable _ _ _ _ _ Hc) as (Hlen & _ & Hown & _).
  destruct (lookup_lt_is_Some_2 hs0 i) as [h0 Hh0].
  { rewrite <- Hlen. by eapply lookup_lt_Some. }
  destruct (Hclean i h0 Hh0) as [Hnone Hkeep].
  specialize (Hown i h0 Hh0). destruct (pool c !! i) as [rest|].
  - destruct Hown as (done & Hsplit & Hx & _).
    assert (x = apply_actions done h0) as -> by congruence.
    rewrite apply_actions_keeps_CmdError; [done|].
    rewrite Hsplit in Hkeep. by apply Forall_app in Hkeep as [? _].
  - congruence.
Qed.

Lemma no_error_returned c r :
  reachable_from mon mb work (start hs0) c ->
  pc c = Returned r -> r = None.
Proof.
  intros Hc. revert r. revert c Hc.
  apply (reachable_invariant mon mb work
           (fun c => forall r, pc c = Returned r -> r = None)); [done|].
  intros c t c' Hc IH Hstep r Hr.
  destruct t as [|j]; simpl in Hstep.
  - apply step_controller_inv in Hstep
      as [(i' & rc & tot & h & Hpc & _ & ->)
         |[(i' & rc & tot & Hpc & _ & ->)
          |[(i' & k & rc & tot & s & rest & Hpc & _ & _ & ->)
           |(i' & k & rc & tot & Hpc & _ & ->)]]];
      simpl in Hr; try done.
    + by destruct (_ || _).
    + injection Hr as <-. apply report_None, failed_names_nil.
      intros x Hx. by apply (no_error_appears c).
  - apply step_worker_spec in Hstep
      as (a & rest & _ & _ & _ & [Hsame|[Hex|Hdr]] & _).
    + apply IH. by rewrite <- Hsame.
    + by rewrite Hex in Hr.
    + destruct Hdr as (? & ? & ? & ? & _ & Hd). by rewrite Hd in Hr.
Qed.

End NoFailure.

(** X26.  When no record holds an error, every record has a command and
    every run of [ssh] succeeds, no state of [Execute] has a record with an
    error, and the call can only return [nil]: the result does not depend
    on the interleaving.  The same holds for [GetFile] when every run of
    [scp] succeeds. *)
Theorem dispatch_returns_nil_when_nothing_fails E ds :
  (forall h, h ∈ HOSTS ds -> CmdError h = None) ->
  (forall SSH,
      LookPath E "ssh" = Some SSH ->
      (forall (i : nat) h,
          HOSTS ds !! i = Some h ->
          cmd h <> "" /\ (CombinedOutput E i SSH (ssh_argv h)).2 = None) ->
      forall sched c,
        Execute_run E ds sched = Some c ->
        (forall x, x ∈ hosts c -> CmdError x = None)
        /\ forall r, pc c = Returned r -> r = None)
  /\ (forall filestring destination,
        (forall SCP (i : nat) h,
            LookPath E "scp" = Some SCP -> HOSTS ds !! i = Some h ->
            (kitutils_RunCMD E i SCP (scp_argv h filestring destination)).2
            = None) ->
        forall sched c,
          GetFile_run E ds filestring destination sched = Some c ->
          (forall x, x ∈ hosts c -> CmdError x = None)
          /\ forall r, pc c = Returned r -> r = None).
Proof.
  intros Hnone. split.
  - intros SSH Hssh Hok sched c Hrun.
    apply Execute_run_cases in Hrun as [(Hd & Hh & _)|(_ & Hc)].
    { rewrite Hh. split; [done|]. intros r Hr. unfold alive in Hd.
      by rewrite Hr in Hd. }
    assert (Hclean : forall (i : nat) h0, HOSTS ds !! i = Some h0 ->
               CmdError h0 = None /\ Forall keeps_CmdError (runCMD E i h0)).
    { intros i h0 Hi. split; [by eapply Hnone, list_elem_of_lookup_2|].
      destruct (Hok i h0 Hi) as [Hcmd Hout].
      rewrite (runCMD_with_command E i h0 SSH Hcmd Hssh).
      destruct (CombinedOutput E i SSH (ssh_argv h0)) as [out [err|]];
        [done|by repeat constructor]. }
    split.
    + intros x. by apply (no_error_appears _ _ _ _ Hclean c x Hc).
    + intros r. by apply (no_error_returned _ _ _ _ Hclean c r Hc).
  - intros filestring destination Hok sched c Hrun.
    apply GetFile_run_cases in Hrun as [(Hd & Hh & _)|(_ & [SCP Hscp] & Hc)].
    { rewrite Hh. split; [done|]. intros r Hr. unfold alive in Hd.
      by rewrite Hr in Hd. }
    assert (Hclean : forall (i : nat) h0, HOSTS ds !! i = Some h0 ->
               CmdError h0 = None
               /\ Forall keeps_CmdError
                    (GetFile_work E filestring destination i h0)).
    { intros i h0 Hi. split; [by eapply Hnone, list_elem_of_lookup_2|].
      specialize (Hok SCP i h0 Hscp Hi).
      unfold GetFile_work, getFileTask. rewrite Hscp.
      destruct (kitutils_RunCMD E i SCP (scp_argv h0 filestring destination))
        as [cmdout [cmderr|]]; [done|by repeat constructor]. }
    split.
    + intros x. by apply (no_error_appears _ _ _ _ Hclean c x Hc).
    + intros r. by apply (no_error_returned _ _ _ _ Hclean c r Hc).
Qed.

Lemma dispatch_returns_nil_when_nothing_fails_witness :
  let E := mkEnv (fun _ => Some "/usr/bin/ssh")
                 (fun _ _ _ => (list_byte_of_string "ok", None))
                 (fun _ _ _ => ("", None)) in
  let ds := (AddCommand (New ["h1"]) "h1" "df" []).1 in
  let sched := [Controller; Worker 0; Worker 0; Worker 0; Controller;
                Controller; Controller] in
  exists c,
    Execute_run E ds sched = Some c
    /\ pc c = Returned None
    /\ (forall x, x ∈ hosts c -> CmdError x = None)
    /\ forall r, pc c = Returned r -> r = None.
Proof.
  intros E ds sched.
  assert (Hrun : exists c, Execute_run E ds sched = Some c
                           /\ pc c = Returned None).
  { eexists. split; [vm_compute; reflexivity|reflexivity]. }
  destruct Hrun as (c & Hrun & Hpc). exists c. split; [done|]. split; [done|].
  assert (Hnone : forall h, h ∈ HOSTS ds -> CmdError h = None).
  { intros h Hh%list_elem_of_In. simpl in Hh. by destruct Hh as [<-|[]]. }
  assert (Hok : forall (i : nat) h,
             HOSTS ds !! i = Some h ->
             cmd h <> ""
             /\ (CombinedOutput E i "/usr/bin/ssh" (ssh_argv h)).2 = None).
  { intros [|i] h; simpl; [|done]. by intros [= <-]. }
  exact (proj1 (dispatch_returns_nil_when_nothing_fails E ds Hnone)
           "/usr/bin/ssh" eq_refl Hok sched c Hrun).
Defined.

(** ** One record at a time *)

Lemma unsent_cons acts (p : list (list action)) :
  unsent (acts :: p) = sends acts ++ unsent p.
Proof. done. Qed.

Lemma unsent_nil (p : list (list action)) :
  Forall (fun acts => sends acts = []) p -> unsent p = [].
Proof.
  induction 1 as [|acts p Hacts _ IH]; [done|].
  by rewrite unsent_cons, Hacts, IH.
Qed.

Lemma unsent_quiet_step (p : list (list action)) (j : nat) a rest :
  p !! j = Some (a :: rest) -> is_send a = false ->
  unsent (<[j := rest]> p) = unsent p.
Proof.
  intros Hj Ha.
  rewrite <- (take_drop_middle p j (a :: rest) Hj) at 2.
  rewrite insert_take_drop by (by eapply lookup_lt_Some).
  rewrite !unsent_app, !unsent_cons. f_equal. f_equal. by destruct a.
Qed.

Lemma unsent_only (p : list (list action)) (j : nat) s rest :
  p !! j = Some (Send s :: rest) ->
  (length (filter pending p) <= 1)%nat ->
  Forall (fun acts => (length (sends acts) <= 1)%nat) p ->
  unsent p = [s] /\ unsent (<[j := rest]> p) = [].
Proof.
  intros Hj Hfl Hle.
  assert (Hrest : sends rest = []).
  { rewrite Forall_lookup in Hle. specialize (Hle j _ Hj). simpl in Hle.
    apply length_zero_iff_nil. lia. }
  rewrite insert_take_drop by (by eapply lookup_lt_Some).
  rewrite <- (take_drop_middle p j (Send s :: rest) Hj) in Hfl |- * at 1.
  rewrite filter_app, filter_cons_True in Hfl by done.
  rewrite length_app in Hfl. simpl in Hfl.
  assert (Ht : unsent (take j p) = []).
  { apply unsent_nil, not_in_flight_no_sends. lia. }
  assert (Hd : unsent (drop (S j) p) = []).
  { apply unsent_nil, not_in_flight_no_sends. lia. }
  rewrite !unsent_app, !unsent_cons, Ht, Hd. simpl. by rewrite Hrest.
Qed.

Section InOrder.

Variable mon : bool.
Variable mb : Z.
Variable work : nat -> Host -> list action.
Variable hs0 : list Host.
Hypothesis Hnarrow : mb <= 1.
Hypothesis Hone : one_message work hs0.

Lemma in_order_controller c c' :
  owned work hs0 c ->
  in_order work hs0 c ->
  step_controller mon mb work c = Some c' ->
  in_order work hs0 c'.
Proof.
  intros (Hlen & _ & Hown & Hpc) Hacc Hstep. unfold in_order in *.
  apply step_controller_inv in Hstep
    as [(i & rc & tot & h & Hc & Hh & ->)
       |[(i & rc & tot & Hc & Hh & ->)
        |[(i & k & rc & tot & s & rest & Hc & Hk & Hchan & ->)
         |(i & k & rc & tot & Hc & Hk & ->)]]];
    cbn [hosts chan pool pc console log]; try done.
  - rewrite Hc in Hpc.
    destruct (lookup_lt_is_Some_2 hs0 i) as [h0 Hh0].
    { rewrite <- Hlen. by eapply lookup_lt_Some. }
    specialize (Hown i h0 Hh0).
    rewrite (lookup_ge_None_2 (pool c) i) in Hown by lia.
    assert (h = h0) as -> by congruence.
    rewrite received_app, unsent_app, length_app. simpl.
    rewrite Hpc in *. replace (i + 1)%nat with (S i) by lia.
    rewrite (messages_S _ _ i h0 Hh0), <- Hacc.
    unfold unsent at 2. simpl. by rewrite !app_nil_r, <- !app_assoc.
  - rewrite received_app. simpl. rewrite <- Hacc, Hchan.
    by rewrite <- !app_assoc.
Qed.

Lemma in_order_worker j c c' :
  reachable_from mon mb work (start hs0) c ->
  in_order work hs0 c ->
  step_worker mon mb j c = Some c' ->
  in_order work hs0 c'.
Proof.
  intros Hc Hacc Hstep. unfold in_order in *.
  destruct (batch_inv_reachable mon mb work hs0 Hone c Hc)
    as (Hle & Hfl & _).
  pose proof (chan_bound mon mb work hs0 c Hc) as Hchan.
  apply step_worker_inv in Hstep as (_ & a & rest & Hj & Hc').
  destruct a;
    [destruct Hc' as [(_ & _ & ->)|(Hmb & i & k & rc & tot & Hpc & Hk & ->)]|..];
    try subst c'; cbn [hosts chan pool pc console log];
    rewrite length_insert, <- Hacc;
    try (by rewrite (unsent_quiet_step _ _ _ _ Hj)).
  - destruct (unsent_only (pool c) j s rest Hj) as [-> ->];
      [unfold in_flight in Hfl; lia|done|].
    by rewrite <- !app_assoc.
  - destruct (unsent_only (pool c) j s rest Hj) as [-> ->];
      [unfold in_flight in Hfl; lia|done|].
    assert (chan c = []) as -> by (apply length_zero_iff_nil; lia).
    rewrite received_app. simpl. by rewrite <- !app_assoc.
Qed.

Lemma in_order_reachable c :
  reachable_from mon mb work (start hs0) c -> in_order work hs0 c.
Proof.
  revert c. apply (reachable_invariant mon mb work
                     (fun c => in_order work hs0 c)); [done|].
  intros c [|j] c' Hc Hinv Hstep; simpl in Hstep.
  - eapply in_order_controller; [|done..]. by eapply owned_reachable.
  - by eapply in_order_worker.
Qed.

End InOrder.

(** X27.  With a batch size of one (or zero) and work items that send one
    message each, the messages are handled in session order: in every
    state the messages received, followed by the one in the channel and
    the one yet to be sent, are the messages of the records launched, in
    the order of the records.  When the call returns it has received the
    message of the first record first and that of the last record last. *)
Theorem one_at_a_time_receives_in_session_order mon mb work hs0 c :
  mb <= 1 ->
  one_message work hs0 ->
  reachable_from mon mb work (start hs0) c ->
  received (log c) ++ chan c ++ unsent (pool c)
  = messages work hs0 (length (pool c))
  /\ forall r, pc c = Returned r ->
       received (log c) = messages work hs0 (length hs0).
Proof.
  intros Hnarrow Hone Hc.
  pose proof (in_order_reachable mon mb work hs0 Hnarrow Hone c Hc) as Hord.
  split; [done|]. intros r Hr. unfold in_order in Hord.
  destruct (batch_inv_reachable mon mb work hs0 Hone c Hc)
    as (_ & _ & _ & _ & Hpc).
  rewrite Hr in Hpc. destruct Hpc as (Hchan & Hfl & _ & Hp).
  rewrite Hchan, Hp in Hord.
  rewrite (unsent_nil (pool c)) in Hord by by apply not_in_flight_no_sends.
  by rewrite !app_nil_r in Hord.
Qed.

Lemma one_at_a_time_receives_in_session_order_witness :
  let E := mkEnv (fun _ => Some "/usr/bin/scp") (fun _ _ _ => ([], None))
                 (fun _ _ _ => ("", None)) in
  let hs := [zeroHost "h1"; zeroHost "h2"] in
  let work := GetFile_work E "/etc/hosts" "/tmp" in
  let sched := [Controller; Worker 0; Worker 0; Controller; Controller;
                Controller; Worker 1; Worker 1; Controller; Controller;
                Controller] in
  exists c,
    run true 1 work sched (start hs) = Some c
    /\ pc c = Returned None
    /\ messages work hs (length hs) = ["h1: SUCCESS"; "h2: SUCCESS"]
    /\ received (log c) = messages work hs (length hs).
Proof.
  intros E hs work sched.
  assert (Hrun : exists c, run true 1 work sched (start hs) = Some c
                           /\ pc c = Returned None).
  { eexists. split; [vm_compute; reflexivity|reflexivity]. }
  destruct Hrun as (c & Hrun & Hpc). exists c.
  split; [done|]. split; [done|]. split; [reflexivity|].
  assert (Hone : one_message work hs).
  { apply (GetFile_work_one_message E "/etc/hosts" "/tmp" hs "/usr/bin/scp").
    reflexivity. }
  exact (proj2 (one_at_a_time_receives_in_session_order true 1 work hs c
                  ltac:(done) Hone (ex_intro _ sched Hrun)) None Hpc).
Defined.

(** ** Room for the messages left over *)

(** X28.  [Execute] settles only when the channel has room for the
    messages nobody receives: in a settled state the channel holds one
    message for each record without a command, so there are at most
    [maxBatch] such records.  With more of them, some goroutine stays
    blocked at its last send for ever. *)
Theorem Execute_settles_only_with_room E ds sched c SSH :
  LookPath E "ssh" = Some SSH ->
  Execute_run E ds sched = Some c ->
  settled c ->
  length (chan c) = length (filter (fun h => cmd h = "") (HOSTS ds))
  /\ Z.of_nat (length (filter (fun h => cmd h = "") (HOSTS ds)))
     <= Z.max 0 (maxBatch ds).
Proof.
  intros Hssh Hrun Hs.
  apply Execute_run_cases in Hrun as [(Hd & _)|(_ & Hc)];
    [by rewrite (settled_alive _ Hs) in Hd|].
  destruct Hs as [[r Hr] Hall].
  pose proof (accounted_reachable _ _ _ _ _ Hc) as Hacc.
  destruct (count_inv_reachable _ _ _ _ _ Hc) as (_ & _ & Hpc).
  rewrite Hr in Hpc. destruct Hpc as [Hp Hrec].
  unfold accounted in Hacc. rewrite Hp in Hacc.
  rewrite (unsent_nil (pool c)) in Hacc
    by (eapply Forall_impl; [done|]; by intros ? ->).
  apply Permutation_length in Hacc.
  rewrite !length_app, (runCMD_messages_length E _ SSH) in Hacc by done.
  rewrite firstn_all in Hacc. simpl in Hacc.
  pose proof (chan_bound _ _ _ _ _ Hc) as Hchan.
  split; lia.
Qed.

Lemma Execute_settles_only_with_room_witness :
  let E := mkEnv (fun _ => Some "/usr/bin/ssh")
                 (fun _ _ _ => ([], None)) (fun _ _ _ => ("", None)) in
  let ds := SetMaxBatch 1 (New ["h1"]) in
  let sched := [Controller; Worker 0; Controller; Worker 0; Worker 0;
                Worker 0; Worker 0; Controller; Controller] in
  exists c,
    Execute_run E ds sched = Some c /\ settled c
    /\ chan c = ["INFO: completed running command on host h1"]
    /\ length (chan c) = length (filter (fun h => cmd h = "") (HOSTS ds))
    /\ Z.of_nat (length (filter (fun h => cmd h = "") (HOSTS ds)))
       <= Z.max 0 (maxBatch ds).
Proof.
  intros E ds sched.
  assert (Hrun : exists c,
             Execute_run E ds sched = Some c /\ settled c
             /\ chan c = ["INFO: completed running command on host h1"]).
  { eexists. split; [vm_compute; reflexivity|].
    split; [|reflexivity]. split; [eexists; reflexivity|repeat constructor]. }
  destruct Hrun as (c & Hrun & Hs & Hchan). exists c. split_and!; [done..| |].
  - apply (Execute_settles_only_with_room E ds sched c "/usr/bin/ssh"
             eq_refl Hrun Hs).
  - apply (Execute_settles_only_with_room E ds sched c "/usr/bin/ssh"
             eq_refl Hrun Hs).
Defined.

(** ** One command for every host *)


